(** * TEP-EXP [scripts/utils/process_pdf.py]: citation extraction and
    metadata assembly

    A shallow embedding of [_parse_citation_cff], [_load_default_metadata],
    the override block of [main] and the value filter of [embed_metadata],
    followed by the properties of the specification that concern them.

    Conventions of the embedding.
    - A Python [str] is a [string]; a character [c : ascii] stands for the
      code point [N_of_ascii c], so the texts covered are those over
      U+0000..U+00FF.  Whitespace and line boundaries are Python's, cut
      down to that range.
    - A Python [dict] with string keys is a [gmap string _].
    - [None] is an exception escaping the function (the only candidates
      are the [[1]] subscripts after [split(":", 1)]) or an exhausted
      re-examination budget of the [while] loop; see [examine]. *)

From Stdlib Require Import Ascii.
From stdpp Require Import gmap strings list fin_maps pretty.

(** ** Python string primitives *)

Module Py.

Definition dquote : ascii := "034"%char.
Definition squote : ascii := "'"%char.

Definition code (c : ascii) : N := N_of_ascii c.

(** [str.isspace] on one character: U+0009..U+000D, U+001C..U+0020,
    U+0085 and U+00A0. *)
Definition is_space (c : ascii) : bool :=
  let n := code c in
  ((9 <=? n) && (n <=? 13) || (28 <=? n) && (n <=? 32)
   || (n =? 133) || (n =? 160))%N.

(** Line boundaries of [str.splitlines]: LF, VT, FF, CR, FS, GS, RS, NEL. *)
Definition is_linebreak (c : ascii) : bool :=
  let n := code c in
  ((10 <=? n) && (n <=? 13) || (28 <=? n) && (n <=? 30) || (n =? 133))%N.

Definition nonempty (s : string) : bool :=
  match s with "" => false | String _ _ => true end.

Fixpoint mem (c : ascii) (chars : string) : bool :=
  match chars with
  | "" => false
  | String a chars' => Ascii.eqb a c || mem c chars'
  end.

Fixpoint lstrip_by (p : ascii → bool) (s : string) : string :=
  match s with
  | "" => ""
  | String c s' => if p c then lstrip_by p s' else s
  end.

Fixpoint rstrip_by (p : ascii → bool) (s : string) : string :=
  match s with
  | "" => ""
  | String c s' =>
      match rstrip_by p s' with
      | "" => if p c then "" else String c ""
      | r => String c r
      end
  end.

Definition strip_by (p : ascii → bool) (s : string) : string :=
  rstrip_by p (lstrip_by p s).

(** [s.strip()] *)
Definition strip (s : string) : string := strip_by is_space s.

(** [s.strip(chars)] and [s.lstrip(chars)] *)
Definition strip_chars (chars s : string) : string :=
  strip_by (λ c, mem c chars) s.
Definition lstrip_chars (chars s : string) : string :=
  lstrip_by (λ c, mem c chars) s.

(** [s.startswith(p)] *)
Fixpoint startswith (s p : string) {struct p} : bool :=
  match p, s with
  | "", _ => true
  | String _ _, "" => false
  | String a p', String b s' => Ascii.eqb a b && startswith s' p'
  end.

(** [s.endswith(p)] *)
Definition endswith (s p : string) : bool :=
  startswith (String.rev s) (String.rev p).

(** [sub in s] *)
Fixpoint contains (s sub : string) : bool :=
  startswith s sub ||
  match s with
  | "" => false
  | String _ s' => contains s' sub
  end.

(** [s[n:]] *)
Fixpoint drop_str (n : nat) (s : string) : string :=
  match n, s with
  | O, _ => s
  | S _, "" => ""
  | S n', String _ s' => drop_str n' s'
  end.

(** [sep.join(parts)] *)
Fixpoint join (sep : string) (parts : list string) : string :=
  match parts with
  | [] => ""
  | [x] => x
  | x :: parts' => x +:+ sep +:+ join sep parts'
  end.

Fixpoint split_once (c : ascii) (s : string) : option (string * string) :=
  match s with
  | "" => None
  | String a s' =>
      if Ascii.eqb a c then Some ("", s')
      else match split_once c s' with
           | Some (l, r) => Some (String a l, r)
           | None => None
           end
  end.

(** [s.split(c, 1)] for a one-character separator *)
Definition split1 (c : ascii) (s : string) : list string :=
  match split_once c s with
  | Some (l, r) => [l; r]
  | None => [s]
  end.

(** [s.split(c)] for a one-character separator *)
Fixpoint split (c : ascii) (s : string) : list string :=
  match s with
  | "" => [""]
  | String a s' =>
      if Ascii.eqb a c then "" :: split c s'
      else match split c s' with
           | l :: ls => String a l :: ls
           | [] => [String a ""]
           end
  end.

(** [s.split()]: the maximal runs of non-whitespace characters *)
Fixpoint split_ws (s : string) : list string :=
  match s with
  | "" => []
  | String c s' =>
      if is_space c then split_ws s'
      else match s' with
           | "" => [String c ""]
           | String d _ =>
               if is_space d then String c "" :: split_ws s'
               else match split_ws s' with
                    | w :: ws => String c w :: ws
                    | [] => [String c ""]
                    end
           end
  end.

(** [s.splitlines()]: CR LF counts as one boundary, and a boundary at the
    very end opens no further line. *)
Fixpoint splitlines (s : string) : list string :=
  match s with
  | "" => []
  | String c s' =>
      if is_linebreak c then
        match s' with
        | String d s'' =>
            if Ascii.eqb c "013"%char && Ascii.eqb d "010"%char
            then "" :: splitlines s''
            else "" :: splitlines s'
        | "" => [""]
        end
      else match splitlines s' with
           | l :: ls => String c l :: ls
           | [] => [String c ""]
           end
  end.

(** [s.upper()], as code points: two characters of the range have their
    capital outside it, and U+00DF becomes two letters. *)
Definition upper_char (c : ascii) : list N :=
  let n := code c in
  (if (97 <=? n) && (n <=? 122) then [n - 32]
   else if n =? 181 then [924]
   else if n =? 223 then [83; 83]
   else if (224 <=? n) && (n <=? 254) && negb (n =? 247) then [n - 32]
   else if n =? 255 then [376]
   else [n])%N.

Fixpoint codes (s : string) : list N :=
  match s with
  | "" => []
  | String c s' => code c :: codes s'
  end.

Fixpoint upper (s : string) : list N :=
  match s with
  | "" => []
  | String c s' => upper_char c ++ upper s'
  end.

Fixpoint prefix_codes (p l : list N) {struct p} : bool :=
  match p, l with
  | [], _ => true
  | _ :: _, [] => false
  | a :: p', b :: l' => (a =? b)%N && prefix_codes p' l'
  end.

(** [sub in l] on code points *)
Fixpoint contains_codes (l sub : list N) : bool :=
  prefix_codes sub l ||
  match l with
  | [] => false
  | _ :: l' => contains_codes l' sub
  end.

Definition hex_digit (n : N) : ascii :=
  (if n <? 10 then ascii_of_N (48 + n) else ascii_of_N (87 + n))%N.

(** [str.isprintable] on one character of the range *)
Definition is_printable (c : ascii) : bool :=
  let n := code c in
  ((32 <=? n) && (n <=? 126) || (161 <=? n) && negb (n =? 173))%N.

Definition repr_char (quote c : ascii) : string :=
  let n := code c in
  if Ascii.eqb c quote || Ascii.eqb c "\"%char then String "\"%char (String c "")
  else if (n =? 9)%N then "\t"
  else if (n =? 10)%N then "\n"
  else if (n =? 13)%N then "\r"
  else if is_printable c then String c ""
  else String "\"%char (String "x"%char
         (String (hex_digit (n / 16)) (String (hex_digit (n mod 16)) ""))).

Fixpoint repr_body (quote : ascii) (s : string) : string :=
  match s with
  | "" => ""
  | String c s' => repr_char quote c +:+ repr_body quote s'
  end.

(** [repr(s)] of a string: single quotes unless the text has a single
    quote and no double quote. *)
Definition repr (s : string) : string :=
  let quote := if mem squote s && negb (mem dquote s) then dquote else squote in
  String quote (repr_body quote s +:+ String quote "").

End Py.

Import Py.

(** ** The citation record and [_parse_citation_cff] *)

(** The values the extractor stores in [data]: a string for every scalar
    key, a list of strings under ["keywords"]. *)
Inductive pyval :=
  | VStr (s : string)
  | VList (l : list string).

(** The local variables of [_parse_citation_cff] that live across
    iterations of its [while] loop.  The index [i] is the position of the
    list of lines still to be read. *)
Record pstate := PState {
  data : gmap string pyval;
  in_abstract : bool;
  abstract_lines : list string;
  in_keywords : bool;
  keywords : list string;
  first_author_family : option string;
  first_author_given : option string
}.

Definition initial : pstate :=
  PState ∅ false [] false [] None None.

Definition with_data (d : gmap string pyval) (st : pstate) : pstate :=
  PState d (in_abstract st) (abstract_lines st) (in_keywords st)
         (keywords st) (first_author_family st) (first_author_given st).

Definition with_in_abstract (b : bool) (st : pstate) : pstate :=
  PState (data st) b (abstract_lines st) (in_keywords st)
         (keywords st) (first_author_family st) (first_author_given st).

Definition with_abstract_lines (l : list string) (st : pstate) : pstate :=
  PState (data st) (in_abstract st) l (in_keywords st)
         (keywords st) (first_author_family st) (first_author_given st).

Definition with_in_keywords (b : bool) (st : pstate) : pstate :=
  PState (data st) (in_abstract st) (abstract_lines st) b
         (keywords st) (first_author_family st) (first_author_given st).

Definition with_keywords (l : list string) (st : pstate) : pstate :=
  PState (data st) (in_abstract st) (abstract_lines st) (in_keywords st)
         l (first_author_family st) (first_author_given st).

Definition with_authors (fam giv : option string) (st : pstate) : pstate :=
  PState (data st) (in_abstract st) (abstract_lines st) (in_keywords st)
         (keywords st) fam giv.

(** The chain of three [strip] calls put on every captured value:
    whitespace, then double quotes, then single quotes, each removed from
    both ends for as long as it is found there. *)
Definition unquote (x : string) : string :=
  strip_chars (String squote "") (strip_chars (String dquote "") (strip x)).

(** The inner function [set_scalar], on the dictionary it closes over. *)
Definition set_scalar (key value : string) (d : gmap string pyval)
  : gmap string pyval :=
  let value := unquote value in
  if nonempty value then <[key := VStr value]> d else d.

(** [x.split(":", 1)[1]]; [None] is the [IndexError]. *)
Definition after_colon (x : string) : option string :=
  split1 ":"%char x !! 1%nat.

(** Truth value of a variable that holds [None] or a string. *)
Definition truthy (o : option string) : bool :=
  match o with
  | Some s => nonempty s
  | None => false
  end.

Definition is_none (o : option string) : bool :=
  match o with
  | Some _ => false
  | None => true
  end.

(** The inner [while j < len(lines)] loop, from [lines[j]] on. *)
Fixpoint author_scan (lines : list string) (fam giv : option string)
  : option (option string * option string) :=
  match lines with
  | [] => Some (fam, giv)
  | lj :: lines' =>
      let s := strip lj in
      let s_key := strip (lstrip_chars "- " s) in
      if startswith s "preferred-citation:"
         || (nonempty s && negb (startswith lj " ") && contains s ":")
      then Some (fam, giv)
      else
        fam' ← (if startswith s_key "family-names:" && is_none fam
                then v ← after_colon s_key; Some (Some (unquote v))
                else Some fam);
        giv' ← (if startswith s_key "given-names:" && is_none giv
                then v ← after_colon s_key; Some (Some (unquote v))
                else Some giv);
        if truthy fam' && truthy giv' then Some (fam', giv')
        else author_scan lines' fam' giv'
  end.

Definition scalar_line (key stripped : string) (st : pstate) : option pstate :=
  v ← after_colon stripped;
  Some (with_data (set_scalar key v (data st)) st).

(** The part of the loop body below the two capture branches (source
    lines 79-145); every path through it ends in [i += 1].  [rest] is
    [lines[i+1:]]. *)
Definition normal_line (line : string) (rest : list string) (st : pstate)
  : option pstate :=
  let stripped := strip line in
  if startswith stripped "abstract:" && endswith stripped ">" then
    Some (with_in_abstract true st)
  else if startswith stripped "keywords:" then
    Some (with_in_keywords true st)
  else if startswith stripped "title:" then scalar_line "title" stripped st
  else if startswith stripped "doi:" then scalar_line "doi" stripped st
  else if startswith stripped "date-released:" then
    scalar_line "date_released" stripped st
  else if startswith stripped "version:" then scalar_line "version" stripped st
  else if startswith stripped "url:" then scalar_line "url" stripped st
  else if startswith stripped "repository-code:" then
    scalar_line "repository_code" stripped st
  else if startswith stripped "license:" then scalar_line "license" stripped st
  else if startswith stripped "authors:" then
    '(fam, giv) ← author_scan rest (first_author_family st)
                                   (first_author_given st);
    Some (with_authors fam giv st)
  else Some st.

Definition newline : string := String "010"%char "".

(** The test that ends the abstract block (source line 59). *)
Definition ends_abstract (line : string) : bool :=
  negb (startswith line "  ") && nonempty (strip line) && contains line ":".

(** What a captured line adds to [abstract_lines] (source line 64). *)
Definition dedent (line : string) : string :=
  if startswith line "  " then drop_str 2 line else line.

(** The text of a keyword entry: [stripped[1:]] under the same chain of
    [strip] calls (source line 71). *)
Definition keyword_of (stripped : string) : string :=
  unquote (drop_str 1 stripped).

(** The three assignments that end the abstract block (source lines
    60-62). *)
Definition close_abstract (st : pstate) : pstate :=
  with_abstract_lines []
    (with_data
       (<["abstract" := VStr (strip (join newline (abstract_lines st)))]>
          (data st))
       (with_in_abstract false st)).

(** One pass through the body of [while i < len(lines)] with
    [line = lines[i]].  The boolean tells whether the pass ran [i += 1];
    a pass that ends in a bare [continue] leaves [i] alone, so that the
    same line is examined again. *)
Definition iteration (line : string) (rest : list string) (st : pstate)
  : option (pstate * bool) :=
  if in_abstract st then
    if ends_abstract line then Some (close_abstract st, false)
    else
      Some (with_abstract_lines (abstract_lines st ++ [dedent line]) st, true)
  else if in_keywords st then
    let stripped := strip line in
    if startswith stripped "-" then
      let kw := keyword_of stripped in
      Some (if nonempty kw then with_keywords (keywords st ++ [kw]) st else st,
            true)
    else Some (with_in_keywords false st, false)
  else
    st' ← normal_line line rest st; Some (st', true).

(** The passes over one line, until one of them advances [i].  The
    source puts no bound on them; [budget] does, and [None] is returned
    when it runs out.  [examine_budget] shows that three passes always
    suffice and that a larger budget changes nothing. *)
Fixpoint examine (budget : nat) (line : string) (rest : list string)
  (st : pstate) : option pstate :=
  match budget with
  | O => None
  | S budget' =>
      '(st', advanced) ← iteration line rest st;
      if advanced : bool then Some st' else examine budget' line rest st'
  end.

(** The [while] loop, over [lines[i:]]. *)
Fixpoint loop (lines : list string) (st : pstate) : option pstate :=
  match lines with
  | [] => Some st
  | line :: rest => st' ← examine 3 line rest st; loop rest st'
  end.

(** The three statements after the loop (source lines 147-154). *)
Definition finish (st : pstate) : gmap string pyval :=
  let d := data st in
  let d := if in_abstract st && negb (bool_decide (abstract_lines st = []))
           then <["abstract" := VStr (strip (join newline (abstract_lines st)))]> d
           else d in
  let d := if negb (bool_decide (keywords st = []))
           then <["keywords" := VList (keywords st)]> d
           else d in
  if truthy (first_author_family st) || truthy (first_author_given st)
  then <["author" :=
           VStr (join " " (filter (λ p, nonempty p = true)
                   (omap id [first_author_given st; first_author_family st])))]> d
  else d.

Definition _parse_citation_cff (cff_text : string) : option (gmap string pyval) :=
  st ← loop (splitlines cff_text) initial; Some (finish st).

(** ** The metadata mapping: [_load_default_metadata], the overrides of
    [main], and [embed_metadata] *)

(** [bool(v)] and [str(v)] of a value of the citation record.  [str] of a
    list is its display form; the extractor never stores a list under a
    key that is read through [str]. *)
Definition py_truth (v : pyval) : bool :=
  match v with
  | VStr s => nonempty s
  | VList l => negb (bool_decide (l = []))
  end.

Definition py_str (v : pyval) : string :=
  match v with
  | VStr s => s
  | VList l => "[" +:+ join ", " (repr <$> l) +:+ "]"
  end.

(** [str(o or d)] for [o = cff.get(key)] and a string [d]. *)
Definition str_or (o : option pyval) (d : string) : string :=
  match o with
  | Some v => if py_truth v then py_str v else d
  | None => d
  end.

(** A value of [VERSION.json] as far as the program looks at it: it is
    only ever tested for truth and passed to [str]. *)
Record jvalue := JValue {
  j_truth : bool;
  j_str : string
}.

(** A JSON string and a JSON integer, seen that way. *)
Definition JStr (s : string) : jvalue := JValue (nonempty s) s.
Definition JInt (z : Z) : jvalue := JValue (negb (z =? 0)%Z) (pretty z).

(** [str(o or d)] for [o = version.get(key)] and a string [d]. *)
Definition jstr_or (o : option jvalue) (d : string) : string :=
  match o with
  | Some j => if j_truth j then j_str j else d
  | None => d
  end.

Definition cc_by_literal : string :=
  "Creative Commons Attribution 4.0 International License (CC BY 4.0)".

Definition producer_label : string := "TEP-EXP Research Project".

Definition title_of (cff : gmap string pyval) : string :=
  str_or (cff !! "title") "TEP-EXP".
Definition author_of (cff : gmap string pyval) : string :=
  str_or (cff !! "author") "".
Definition doi_of (cff : gmap string pyval) : string :=
  str_or (cff !! "doi") "".
Definition date_released_of (cff : gmap string pyval) : string :=
  str_or (cff !! "date_released") "".
Definition codename_of (version : gmap string jvalue) : string :=
  jstr_or (version !! "codename") "".
(** [str(version.get("version") or cff.get("version") or "")] *)
Definition vnum_of (version : gmap string jvalue) (cff : gmap string pyval)
  : string :=
  jstr_or (version !! "version") (str_or (cff !! "version") "").
Definition abstract_of (cff : gmap string pyval) : string :=
  str_or (cff !! "abstract") "".

Definition keywords_list_of (cff : gmap string pyval) : list string :=
  match cff !! "keywords" with
  | Some (VList l) => l
  | _ => []
  end.

Definition keywords_of (version : gmap string jvalue) (cff : gmap string pyval)
  : string :=
  let codename := codename_of version in
  let vnum := vnum_of version cff in
  let keywords := join "; " (keywords_list_of cff) in
  if nonempty codename && nonempty vnum then
    if nonempty keywords
    then keywords +:+ "; " +:+ codename +:+ " v" +:+ vnum
    else codename +:+ " v" +:+ vnum
  else keywords.

Definition repo_of (cff : gmap string pyval) : string :=
  str_or (cff !! "repository_code") (str_or (cff !! "url") "").

(** The [try] block around the three-way unpacking of
    [date_released.split("-")]: any other number of parts raises
    [ValueError], which the handler turns into the empty string. *)
Definition creation_date_of (cff : gmap string pyval) : string :=
  let date_released := date_released_of cff in
  if nonempty date_released then
    match split "-"%char date_released with
    | [yyyy; mm; dd] => yyyy +:+ ":" +:+ mm +:+ ":" +:+ dd +:+ " 00:00:00"
    | _ => ""
    end
  else "".

Definition subject_of (cff : gmap string pyval) : string :=
  let abstract := abstract_of cff in
  let doi := doi_of cff in
  let repo := repo_of cff in
  let subject_parts :=
    (if nonempty abstract then [join " " (split_ws abstract)] else [])
    ++ (if nonempty doi then ["DOI: " +:+ doi] else [])
    ++ (if nonempty repo then ["Code: " +:+ repo] else []) in
  strip (join " " subject_parts).

Definition license_str_of (cff : gmap string pyval) : string :=
  str_or (cff !! "license") "CC-BY-4.0".

Definition copyright_of (cff : gmap string pyval) : string :=
  let license_str := license_str_of cff in
  if contains_codes (upper license_str) (codes "CC-BY")
  then cc_by_literal else license_str.

Definition producer_of (version : gmap string jvalue) (cff : gmap string pyval)
  : string :=
  let codename := codename_of version in
  let vnum := vnum_of version cff in
  if nonempty codename && nonempty vnum
  then producer_label +:+ " (" +:+ codename +:+ " v" +:+ vnum +:+ ")"
  else producer_label.

(** The body of [_load_default_metadata] from source line 172 on, given
    the two parsed inputs. *)
Definition default_metadata (version : gmap string jvalue)
  (cff : gmap string pyval) : gmap string string :=
  let author := author_of cff in
  let doi := doi_of cff in
  let creation_date := creation_date_of cff in
  let metadata : gmap string string :=
    <["Copyright" := copyright_of cff]>
    (<["Keywords" := keywords_of version cff]>
    (<["Subject" := subject_of cff]>
    (<["Producer" := producer_of version cff]>
    (<["Creator" := author]>
    (<["Author" := author]>
    (<["Title" := title_of cff]> ∅)))))) in
  let metadata :=
    if nonempty creation_date
    then <["ModifyDate" := creation_date]>
           (<["CreationDate" := creation_date]> metadata)
    else metadata in
  if nonempty doi then <["Identifier" := doi]> metadata else metadata.

(** [_load_default_metadata], with the contents of the two project files
    as arguments: [version] is what [json.loads] gave ([∅] when reading
    or decoding failed) and [cff_text] what [_read_text] returned. *)
Definition _load_default_metadata (version : gmap string jvalue)
  (cff_text : option string) : option (gmap string string) :=
  let cff_text := default "" cff_text in
  cff ← (if nonempty cff_text then _parse_citation_cff cff_text else Some ∅);
  Some (default_metadata version cff).

(** The four override options of the command line; [None] is the
    default of an option that was not given. *)
Record overrides := Overrides {
  arg_doi : option string;
  arg_title : option string;
  arg_author : option string;
  arg_url : option string
}.

Definition no_overrides : overrides := Overrides None None None None.

(** [metadata.get("Subject")] tested for truth, then the f-string and its
    [strip] (source lines 368-371 and 374-377). *)
Definition append_subject (label value : string) (metadata : gmap string string)
  : gmap string string :=
  match metadata !! "Subject" with
  | Some subject =>
      if nonempty subject
      then <["Subject" := strip (subject +:+ " " +:+ label +:+ value)]> metadata
      else <["Subject" := strip (label +:+ value)]> metadata
  | None => <["Subject" := strip (label +:+ value)]> metadata
  end.

(** The override block of [main] (source lines 361-377). *)
Definition apply_overrides (args : overrides) (metadata : gmap string string)
  : gmap string string :=
  let metadata :=
    match arg_title args with
    | Some t => if nonempty t then <["Title" := t]> metadata else metadata
    | None => metadata
    end in
  let metadata :=
    match arg_author args with
    | Some a =>
        if nonempty a
        then <["Creator" := a]> (<["Author" := a]> metadata)
        else metadata
    | None => metadata
    end in
  let metadata :=
    match arg_doi args with
    | Some d =>
        if nonempty d
        then append_subject "DOI: " d (<["Identifier" := d]> metadata)
        else metadata
    | None => metadata
    end in
  match arg_url args with
  | Some u => if nonempty u then append_subject "URL: " u metadata else metadata
  | None => metadata
  end.

(** The fields [embed_metadata] hands to the external tool: for every
    item of the dictionary, the stripped value, unless that is empty.
    ([embed_metadata_gs] filters the same way.)  The order of the
    arguments on the command line is not modelled. *)
Definition embed_fields (metadata : gmap string string) : gmap string string :=
  omap (λ value, let v := strip value in if nonempty v then Some v else None)
       metadata.

(** The mapping that reaches the output document. *)
Definition final_metadata (version : gmap string jvalue)
  (cff : gmap string pyval) (args : overrides) : gmap string string :=
  embed_fields (apply_overrides args (default_metadata version cff)).

(** ** Definitions used to state the properties *)

(** The state in which a line reaches the normal-mode part of the loop
    body after it has ended whatever capture was going on. *)
Definition settle (st : pstate) : pstate :=
  let st := if in_abstract st then close_abstract st else st in
  if in_keywords st then with_in_keywords false st else st.

(** The recognised scalar prefixes and the key each one fills. *)
Definition scalar_prefixes : list (string * string) :=
  [("title:", "title"); ("doi:", "doi"); ("date-released:", "date_released");
   ("version:", "version"); ("url:", "url");
   ("repository-code:", "repository_code"); ("license:", "license")].

(** The specification's wording for the value of a scalar line:
    surrounding whitespace stripped, then one layer of matching quote
    characters. *)
Definition last_char (s : string) : option ascii :=
  match String.rev s with
  | "" => None
  | String c _ => Some c
  end.

Definition drop_last (s : string) : string :=
  String.rev (drop_str 1 (String.rev s)).

Definition strip_one_quote_layer (x : string) : string :=
  let t := strip x in
  match t with
  | String q (String c r) =>
      if (Ascii.eqb q dquote || Ascii.eqb q squote)
         && bool_decide (last_char (String c r) = Some q)
      then drop_last (String c r)
      else t
  | _ => t
  end.

(** The specification's wording for the licence test: the text contains
    the needle when the letters a-z are not told apart from A-Z. *)
Definition fold_case (c : ascii) : ascii :=
  let n := code c in
  if ((97 <=? n) && (n <=? 122))%N then ascii_of_N (n - 32) else c.

Fixpoint fold_str (s : string) : string :=
  match s with
  | "" => ""
  | String c s' => String (fold_case c) (fold_str s')
  end.

Definition contains_ignoring_case (s sub : string) : bool :=
  contains (fold_str s) (fold_str sub).

(** A string that is empty or begins with a character outside [f]. *)
Definition clean_head (f : ascii → bool) (s : string) : Prop :=
  match s with
  | "" => True
  | String c _ => f c = false
  end.

(** The code points of the letters of the licence needle. *)
Definition cc_by_code (n : N) : bool :=
  ((n =? 67) || (n =? 45) || (n =? 66) || (n =? 89))%N.

(** What the comparison of the capitalised text with the needle relies
    on, character by character: either the capital of [c] is the single
    character that folding gives, or neither has anything in common with
    the needle. *)
Definition upper_agrees (c : ascii) : bool :=
  match upper_char c with
  | [n] => (n =? code (fold_case c))%N
           || negb (cc_by_code n) && negb (cc_by_code (code (fold_case c)))
  | ns => forallb (λ n, negb (cc_by_code n)) ns
          && negb (cc_by_code (code (fold_case c)))
          && negb (bool_decide (ns = []))
  end.

(** A citation file of the usual shape, for the worked example at the
    end. *)
Definition citation_file : string :=
  join newline
    ["cff-version: 1.2.0";
     "title: 'Clocks: a Study'";
     "abstract: >";
     "  Proper time";
     "  and rods.";
     "authors:";
     "  - family-names: Doe";
     "    given-names: Jane";
     "  - family-names: Roe";
     "    given-names: Rick";
     "keywords:";
     "  - time";
     "  - clocks";
     "doi: 10.5281/zenodo.1";
     "date-released: 2024-03-15";
     "license: CC-BY-4.0"].

(** ** The rest of the file: [embed_metadata], [embed_metadata_gs],
    [compress_pdf], [verify_metadata] *)

(** Below, a dictionary is given by its items, a list of pairs in the
    order in which a loop over the dictionary visits them. *)

(** The arguments [embed_metadata] adds to [cmd], one per item whose
    stripped value is not empty (source lines 274-280). *)
Fixpoint exiftool_fields (metadata : list (string * string)) : list string :=
  match metadata with
  | [] => []
  | (key, value) :: metadata' =>
      let v := strip value in
      if nonempty v then ("-" +:+ key +:+ "=" +:+ v) :: exiftool_fields metadata'
      else exiftool_fields metadata'
  end.

(** The command line of [embed_metadata] (source lines 273-282). *)
Definition exiftool_cmd (pdf_path : string) (metadata : list (string * string)) : list string :=
  ["exiftool"] ++ exiftool_fields metadata ++ ["-overwrite_original"; pdf_path].

(** [s.replace(old, new)] for a one-character [old]. *)
Fixpoint replace_char (old : ascii) (new s : string) : string :=
  match s with
  | "" => ""
  | String c s' =>
      (if Ascii.eqb c old then new else String c "") +:+ replace_char old new s'
  end.

(** The inner function [escape_ps] of [embed_metadata_gs]: three
    replacements, one after the other (source line 293). *)
Definition escape_ps (s : string) : string :=
  replace_char ")"%char "\)"
    (replace_char "("%char "\(" (replace_char "\"%char "\\" s)).

(** The value of [meta_str] after the loop of [embed_metadata_gs]
    (source lines 296-301). *)
Fixpoint meta_str (metadata : list (string * string)) : string :=
  match metadata with
  | [] => ""
  | (key, value) :: metadata' =>
      let v := strip value in
      if nonempty v
      then ("/" +:+ key +:+ " (" +:+ escape_ps v +:+ ") ") +:+ meta_str metadata'
      else meta_str metadata'
  end.

(** The text written to the temporary file (source line 302). *)
Definition pdfmark_text (metadata : list (string * string)) : string :=
  "[ " +:+ meta_str metadata +:+ " /DOCINFO pdfmark".

(** The command line of [embed_metadata_gs] (source lines 305-315). *)
Definition pdfmark_cmd (pdf_path pdfmark_path : string) : list string :=
  ["gs"; "-sDEVICE=pdfwrite"; "-dNOPAUSE"; "-dBATCH"; "-dQUIET";
   "-sOutputFile=" +:+ (pdf_path +:+ ".tmp"); pdf_path; pdfmark_path].

(** The table of [compress_pdf], in the order it is written. *)
Definition quality_settings : list (string * string) :=
  [("screen", "/screen"); ("ebook", "/ebook"); ("printer", "/printer");
   ("prepress", "/prepress"); ("default", "/default")].

(** [quality_settings[quality]], [None] when the key is missing. *)
Fixpoint table_get (table : list (string * string)) (key : string) : option string :=
  match table with
  | [] => None
  | (k, v) :: table' => if String.eqb k key then Some v else table_get table' key
  end.

(** The first part of [compress_pdf] (source lines 234-257): the
    [ValueError] with its message, or the command line. *)
Definition compress_cmd (input_path output_path quality : string)
  : string + list string :=
  match table_get quality_settings quality with
  | None =>
      inl ("Quality must be one of: " +:+ join ", " (fst <$> quality_settings))
  | Some setting =>
      inr ["gs"; "-sDEVICE=pdfwrite"; "-dCompatibilityLevel=1.4";
           "-dPDFSETTINGS=" +:+ setting; "-dNOPAUSE"; "-dQUIET"; "-dBATCH";
           "-sOutputFile=" +:+ output_path; input_path]
  end.

(** The values [main] lets through for the quality option (source line
    342). *)
Definition quality_choices : list string :=
  ["screen"; "ebook"; "printer"; "prepress"; "default"].

(** The command line of [verify_metadata] (source line 329), and the
    fields [main] asks it for (source line 409). *)
Definition verify_cmd (pdf_path : string) (fields : list string) : list string :=
  ["exiftool"] ++ ((λ f, "-" +:+ f) <$> fields) ++ [pdf_path].

Definition verified_fields : list string :=
  ["Title"; "Author"; "Subject"; "Keywords"; "Creator"; "Producer"; "Copyright"].

(** ** Further definitions used to state properties *)

(** The stripped lines on which the normal-mode part of the loop body
    acts. *)
Definition recognised (stripped : string) : bool :=
  startswith stripped "abstract:" && endswith stripped ">"
  || startswith stripped "keywords:"
  || existsb (λ pk, startswith stripped pk.1) scalar_prefixes
  || startswith stripped "authors:".

(** The items that pass the filter of the two embedding functions, with
    their stripped values. *)
Definition embedded_items (metadata : list (string * string))
  : list (string * string) :=
  omap (λ kv : string * string,
          let v := strip kv.2 in
          if nonempty v then Some (kv.1, v) else None)
       metadata.

(** The three characters [escape_ps] deals with, and the texts in which
    each of them only occurs behind a backslash that escapes it. *)
Definition ps_special (c : ascii) : bool :=
  Ascii.eqb c "\"%char || Ascii.eqb c "("%char || Ascii.eqb c ")"%char.

Fixpoint ps_escaped (s : string) : bool :=
  match s with
  | "" => true
  | String c s' =>
      if Ascii.eqb c "\"%char then
        match s' with
        | String d s'' => ps_special d && ps_escaped s''
        | "" => false
        end
      else negb (ps_special c) && ps_escaped s'
  end.

(** One character under [escape_ps], as one pass would do it. *)
Definition escape_ps_char (c : ascii) : string :=
  if ps_special c then String "\"%char (String c "") else String c "".

(** What an entry of the record returned by the extractor looks like. *)
Definition shape_ok (k : string) (v : pyval) : Prop :=
  match v with
  | VStr s =>
      k = "abstract" ∧ strip s = s
      ∨ (k ∈ scalar_prefixes.*2 ∨ k = "author") ∧ s ≠ ""
  | VList l => k = "keywords" ∧ l ≠ [] ∧ Forall (λ kw, kw ≠ "") l
  end.

(** The test that stops the author scan (source line 133). *)
Definition scan_stops (lj : string) : bool :=
  let s := strip lj in
  startswith s "preferred-citation:"
  || nonempty s && negb (startswith lj " ") && contains s ":".

(** * Properties *)

(** ** Facts about the string primitives *)

Section StringFacts.

Implicit Types (s p r : string) (c : ascii) (f : ascii → bool).

Lemma nonempty_true s : nonempty s = true ↔ s ≠ "".
Proof. destruct s; simpl; split; congruence. Qed.

Lemma nonempty_false s : nonempty s = false ↔ s = "".
Proof. destruct s; simpl; split; congruence. Qed.

Lemma startswith_app s p : startswith s p = true ↔ ∃ r, s = p +:+ r.
Proof.
  revert s; induction p as [|a p IH]; intros s; simpl.
  - split; [by exists s | done].
  - destruct s as [|b s].
    + split; [discriminate | intros [r Hr]; discriminate Hr].
    + rewrite andb_true_iff, Ascii.eqb_eq, IH. split.
      * intros [-> [r ->]]. by exists r.
      * intros [r Hr]. injection Hr as -> ->. eauto.
Qed.

Lemma startswith_mem s p c :
  startswith s p = true → mem c p = true → mem c s = true.
Proof.
  revert s; induction p as [|a p IH]; intros s; simpl; [discriminate|].
  destruct s as [|b s]; [discriminate|]; simpl.
  intros [->%Ascii.eqb_eq Hp]%andb_true_iff [Hc|Hc]%orb_true_iff.
  - by rewrite Hc.
  - rewrite (IH _ Hp Hc). apply orb_true_r.
Qed.

Lemma contains_single s c : contains s (String c "") = mem c s.
Proof.
  induction s as [|a s IH]; simpl; [done|].
  rewrite IH, andb_true_r. by rewrite Ascii.eqb_sym.
Qed.

Lemma mem_split_once c s : mem c s = true → is_Some (split_once c s).
Proof.
  induction s as [|a s IH]; simpl; [discriminate|].
  destruct (Ascii.eqb a c); simpl; [eauto|].
  intros [p Hp]%IH. rewrite Hp. destruct p; eauto.
Qed.

Lemma mem_after_colon s : mem ":"%char s = true → is_Some (after_colon s).
Proof.
  intros [[l r] Hs]%mem_split_once. unfold after_colon, split1.
  rewrite Hs. simpl. eauto.
Qed.

Lemma lstrip_by_mem f s c : mem c (lstrip_by f s) = true → mem c s = true.
Proof.
  induction s as [|a s IH]; simpl; [done|].
  destruct (f a); simpl; [|done].
  intros ->%IH. apply orb_true_r.
Qed.

Lemma rstrip_by_mem f s c : mem c (rstrip_by f s) = true → mem c s = true.
Proof.
  induction s as [|a s IH]; simpl; [done|].
  destruct (rstrip_by f s) as [|b r] eqn:Hr.
  - destruct (f a); simpl; [discriminate|].
    rewrite orb_false_r. by intros ->.
  - simpl in *. intros [->|H]%orb_true_iff; [done|].
    rewrite IH by done. apply orb_true_r.
Qed.

Lemma strip_by_mem f s c : mem c (strip_by f s) = true → mem c s = true.
Proof. intros H%rstrip_by_mem. by apply lstrip_by_mem in H. Qed.

Lemma lstrip_by_clean f s : clean_head f (lstrip_by f s).
Proof.
  induction s as [|a s IH]; simpl; [done|].
  destruct (f a) eqn:Ha; simpl; done.
Qed.

Lemma lstrip_by_id f s : clean_head f s → lstrip_by f s = s.
Proof. destruct s as [|a s]; simpl; [done|]. by intros ->. Qed.

Lemma rstrip_by_clean f s : clean_head f s → clean_head f (rstrip_by f s).
Proof.
  destruct s as [|a s]; simpl; [done|]. intros Ha.
  destruct (rstrip_by f s); [rewrite Ha|]; done.
Qed.

Lemma rstrip_by_idem f s : rstrip_by f (rstrip_by f s) = rstrip_by f s.
Proof.
  induction s as [|a s IH]; simpl; [done|].
  destruct (rstrip_by f s) as [|b r] eqn:Hr.
  - destruct (f a) eqn:Ha; simpl; [done|]. by rewrite Ha.
  - change (rstrip_by f (String a (String b r))) with
      (match rstrip_by f (String b r) with
       | "" => if f a then "" else String a ""
       | r' => String a r'
       end).
    by rewrite IH.
Qed.

Lemma strip_by_idem f s : strip_by f (strip_by f s) = strip_by f s.
Proof.
  unfold strip_by.
  rewrite (lstrip_by_id f (rstrip_by f _)).
  - apply rstrip_by_idem.
  - apply rstrip_by_clean, lstrip_by_clean.
Qed.

Lemma strip_idem s : strip (strip s) = strip s.
Proof. apply strip_by_idem. Qed.

(** Stripping leaves the empty string only when every character is one
    of those stripped. *)
Lemma rstrip_by_empty f s c :
  rstrip_by f s = "" → mem c s = true → f c = true.
Proof.
  induction s as [|a s IH]; simpl; [discriminate|].
  destruct (rstrip_by f s) as [|b r] eqn:Hr; [|discriminate].
  destruct (f a) eqn:Ha; [|discriminate].
  intros _ [->%Ascii.eqb_eq|H]%orb_true_iff; [done|]. by apply IH.
Qed.

Lemma lstrip_by_mem_inv f s c :
  mem c s = true → f c = false → mem c (lstrip_by f s) = true.
Proof.
  induction s as [|a s IH]; simpl; [done|].
  intros [Hc%Ascii.eqb_eq|Hc]%orb_true_iff Hf.
  - subst. rewrite Hf. simpl. by rewrite Ascii.eqb_refl.
  - destruct (f a); [by apply IH|]. simpl. rewrite Hc. apply orb_true_r.
Qed.

Lemma strip_by_nonempty f s c :
  mem c s = true → f c = false → nonempty (strip_by f s) = true.
Proof.
  intros Hc Hf. apply nonempty_true. intros He.
  pose proof (lstrip_by_mem_inv f s c Hc Hf) as Hm.
  pose proof (rstrip_by_empty f _ c He Hm). congruence.
Qed.

Lemma app_cons_str c s r : String c s +:+ r = String c (s +:+ r).
Proof. reflexivity. Qed.

Lemma app_nil_l_str s : "" +:+ s = s.
Proof. reflexivity. Qed.

Lemma app_nil_r_str s : s +:+ "" = s.
Proof.
  induction s as [|a s IH]; [done|]. by rewrite app_cons_str, IH.
Qed.

Lemma mem_app s r c : mem c (s +:+ r) = mem c s || mem c r.
Proof.
  induction s as [|a s IH]; [done|].
  rewrite app_cons_str. simpl. by rewrite IH, orb_assoc.
Qed.

Lemma app_assoc_str s p r : (s +:+ p) +:+ r = s +:+ (p +:+ r).
Proof.
  induction s as [|a s IH]; [done|]. by rewrite !app_cons_str, IH.
Qed.

End StringFacts.

(** ** The metadata mapping *)

Lemma embed_fields_lookup (metadata : gmap string string) k :
  embed_fields metadata !! k =
  metadata !! k ≫= λ value,
    let v := strip value in if nonempty v then Some v else None.
Proof. apply lookup_omap. Qed.

(** C2.  Every key of the mapping that reaches the output document has a
    value that is still non-empty after trimming; a field whose assembled
    value is empty or blank is left out, and every other field is passed
    on with its value trimmed. *)
Theorem final_metadata_values_never_blank version cff args k :
  let assembled := apply_overrides args (default_metadata version cff) in
  (∀ v, final_metadata version cff args !! k = Some v → strip v ≠ "") ∧
  (∀ w, assembled !! k = Some w → strip w = "" →
        final_metadata version cff args !! k = None) ∧
  (∀ w, assembled !! k = Some w → strip w ≠ "" →
        final_metadata version cff args !! k = Some (strip w)).
Proof.
  intros assembled. unfold final_metadata. fold assembled.
  rewrite embed_fields_lookup. repeat split.
  - intros v. destruct (assembled !! k) as [w|]; simpl; [|discriminate].
    destruct (nonempty (strip w)) eqn:Hw; [|discriminate].
    intros [= <-]. rewrite strip_idem. by apply nonempty_true.
  - intros w -> Hw. simpl. by rewrite Hw.
  - intros w -> Hw%nonempty_true. simpl. by rewrite Hw.
Qed.

Lemma final_metadata_values_never_blank_witness :
  strip "TEP-EXP" ≠ "" ∧ final_metadata ∅ ∅ no_overrides !! "Author" = None.
Proof.
  pose proof (final_metadata_values_never_blank ∅ ∅ no_overrides "Title") as [H1 _].
  pose proof (final_metadata_values_never_blank ∅ ∅ no_overrides "Author")
    as (_ & H2 & _).
  split.
  - apply H1. vm_compute. reflexivity.
  - apply (H2 ""); vm_compute; reflexivity.
Defined.


Ltac map_lookup :=
  repeat first
    [ rewrite lookup_insert_eq
    | rewrite lookup_insert_ne by (intros ?; discriminate)
    | rewrite lookup_empty ].

Lemma append_subject_lookup_ne label value (metadata : gmap string string) k :
  k ≠ "Subject" →
  append_subject label value metadata !! k = metadata !! k.
Proof.
  intros Hk. unfold append_subject.
  destruct (metadata !! "Subject") as [subject|];
    [destruct (nonempty subject)|]; by rewrite lookup_insert_ne.
Qed.

(** The overrides of [main] write to five keys only. *)
Lemma apply_overrides_lookup_ne args (metadata : gmap string string) k :
  k ≠ "Title" → k ≠ "Author" → k ≠ "Creator" →
  k ≠ "Identifier" → k ≠ "Subject" →
  apply_overrides args metadata !! k = metadata !! k.
Proof.
  intros Ht Ha Hc Hi Hs. unfold apply_overrides.
  destruct args as [[d|] [t|] [a|] [u|]]; simpl;
    repeat match goal with
           | |- context [nonempty ?x] => destruct (nonempty x)
           end;
    rewrite ?append_subject_lookup_ne by done;
    rewrite ?lookup_insert_ne by done; done.
Qed.

Lemma creation_date_of_spec cff v :
  (nonempty (creation_date_of cff) = true ∧ creation_date_of cff = v) ↔
  ∃ yyyy mm dd,
    split "-"%char (date_released_of cff) = [yyyy; mm; dd] ∧
    v = yyyy +:+ ":" +:+ mm +:+ ":" +:+ dd +:+ " 00:00:00".
Proof.
  unfold creation_date_of.
  destruct (nonempty (date_released_of cff)) eqn:Hne.
  - destruct (split "-"%char (date_released_of cff))
      as [|y [|m [|d [|? ?]]]] eqn:Hs;
      try (split; [by intros [? _] | by intros (? & ? & ? & ? & _)]).
    split.
    + intros [_ <-]. by exists y, m, d.
    + intros (y' & m' & d' & [= <- <- <-] & ->). split; [|done].
      by destruct y.
  - apply nonempty_false in Hne. rewrite Hne. simpl.
    split; [by intros [? _] | by intros (? & ? & ? & ? & _)].
Qed.

Lemma default_metadata_creation_date version cff :
  default_metadata version cff !! "CreationDate" =
  (if nonempty (creation_date_of cff) then Some (creation_date_of cff) else None)
  ∧ default_metadata version cff !! "ModifyDate" =
    default_metadata version cff !! "CreationDate".
Proof.
  unfold default_metadata.
  destruct (nonempty (creation_date_of cff)), (nonempty (doi_of cff));
    by map_lookup.
Qed.

(** C6.  [CreationDate] is present exactly when the record's
    [date_released] splits on the hyphen into three parts, and then it is
    those parts joined by colons and followed by the fixed time of day;
    [ModifyDate] is present with the same value or absent along with it.
    An absent [date_released] gives neither key.  The overrides do not
    touch the two keys, and the value reaches the output document
    unchanged but for the trimming. *)
Theorem creation_date_iff_three_components version cff args :
  let md := default_metadata version cff in
  (∀ v, md !! "CreationDate" = Some v ↔
        ∃ yyyy mm dd,
          split "-"%char (date_released_of cff) = [yyyy; mm; dd] ∧
          v = yyyy +:+ ":" +:+ mm +:+ ":" +:+ dd +:+ " 00:00:00") ∧
  md !! "ModifyDate" = md !! "CreationDate" ∧
  (∀ s, cff !! "date_released" = Some (VStr s) → date_released_of cff = s) ∧
  (cff !! "date_released" = None → md !! "CreationDate" = None) ∧
  apply_overrides args md !! "CreationDate" = md !! "CreationDate" ∧
  apply_overrides args md !! "ModifyDate" = md !! "ModifyDate" ∧
  final_metadata version cff args !! "CreationDate" =
    strip <$> md !! "CreationDate" ∧
  final_metadata version cff args !! "ModifyDate" =
    strip <$> md !! "CreationDate".
Proof.
  intros md.
  destruct (default_metadata_creation_date version cff) as [Hc Hm].
  fold md in Hc, Hm.
  assert (Hiff : ∀ v, md !! "CreationDate" = Some v ↔
            ∃ yyyy mm dd,
              split "-"%char (date_released_of cff) = [yyyy; mm; dd] ∧
              v = yyyy +:+ ":" +:+ mm +:+ ":" +:+ dd +:+ " 00:00:00").
  { intros v. rewrite <- creation_date_of_spec, Hc.
    destruct (nonempty (creation_date_of cff)); split.
    - by intros [= <-].
    - by intros [_ <-].
    - discriminate.
    - by intros [? _]. }
  assert (Hfin : ∀ k, k = "CreationDate" ∨ k = "ModifyDate" →
            final_metadata version cff args !! k = strip <$> md !! "CreationDate").
  { intros k Hk. unfold final_metadata. rewrite embed_fields_lookup.
    rewrite apply_overrides_lookup_ne by (destruct Hk as [-> | ->]; discriminate).
    fold md. replace (md !! k) with (md !! "CreationDate")
      by (by destruct Hk as [-> | ->]).
    destruct (md !! "CreationDate") as [v|] eqn:Hv; [|done]. simpl.
    destruct (proj1 (Hiff v) eq_refl) as (y & m & d & _ & ->).
    rewrite (strip_by_nonempty is_space _ "0"%char); [done| |done].
    rewrite !mem_app. simpl. by rewrite !orb_true_r. }
  split_and!; try done.
  - intros s Hs. unfold date_released_of, str_or. rewrite Hs. simpl.
    by destruct s.
  - intros Hn. rewrite Hc. unfold creation_date_of, date_released_of, str_or.
    by rewrite Hn.
  - by apply apply_overrides_lookup_ne.
  - by apply apply_overrides_lookup_ne.
  - apply Hfin; auto.
  - apply Hfin; auto.
Qed.

Lemma creation_date_iff_three_components_witness :
  default_metadata ∅ {["date_released" := VStr "2024-03-15"]} !! "CreationDate"
    = Some "2024:03:15 00:00:00"
  ∧ default_metadata ∅ {["date_released" := VStr "2024-03"]} !! "CreationDate"
    = None.
Proof.
  split.
  - destruct (creation_date_iff_three_components
                ∅ {["date_released" := VStr "2024-03-15"]} no_overrides)
      as [H _].
    apply H. exists "2024", "03", "15". split; vm_compute; reflexivity.
  - destruct (creation_date_iff_three_components
                ∅ {["date_released" := VStr "2024-03"]} no_overrides)
      as [H _].
    destruct (default_metadata ∅ {["date_released" := VStr "2024-03"]}
                !! "CreationDate") as [v|]; [|reflexivity].
    destruct (proj1 (H v) eq_refl) as (y & m & d & Hs & _).
    vm_compute in Hs. discriminate Hs.
Defined.


(** *** The licence test *)

Lemma upper_agrees_all c : upper_agrees c = true.
Proof. destruct c as [[] [] [] [] [] [] [] []]; vm_compute; reflexivity. Qed.

Lemma code_eqb a b : (code a =? code b)%N = Ascii.eqb a b.
Proof.
  unfold code. destruct (Ascii.eqb_spec a b) as [->|Hne].
  - apply N.eqb_refl.
  - apply N.eqb_neq. intros H. apply Hne.
    by rewrite <- (ascii_N_embedding a), H, ascii_N_embedding.
Qed.

Lemma cc_by_code_neq n m :
  cc_by_code n = true → cc_by_code m = false → (n =? m)%N = false.
Proof.
  intros Hn Hm. apply N.eqb_neq. intros ->. congruence.
Qed.

Lemma prefix_codes_upper_char a q c l :
  cc_by_code (code a) = true →
  prefix_codes (code a :: q) (upper_char c ++ l)
  = Ascii.eqb a (fold_case c) && prefix_codes q l.
Proof.
  intros Ha. pose proof (upper_agrees_all c) as Hc. unfold upper_agrees in Hc.
  assert (Hno : cc_by_code (code (fold_case c)) = false →
                Ascii.eqb a (fold_case c) = false).
  { intros Hf. rewrite <- code_eqb. by apply cc_by_code_neq. }
  destruct (upper_char c) as [|n [|n' ns]]; simpl in Hc |- *.
  - by rewrite andb_false_r in Hc.
  - apply orb_true_iff in Hc as [->%N.eqb_eq|[Hn Hf]%andb_true_iff].
    + by rewrite code_eqb.
    + apply negb_true_iff in Hn, Hf.
      by rewrite (cc_by_code_neq _ _ Ha Hn), Hno.
  - apply andb_true_iff in Hc as [[[Hn _]%andb_true_iff Hf]%andb_true_iff _].
    apply negb_true_iff in Hn, Hf.
    by rewrite (cc_by_code_neq _ _ Ha Hn), Hno.
Qed.

Lemma prefix_codes_upper p s :
  forallb cc_by_code (codes p) = true →
  prefix_codes (codes p) (upper s) = startswith (fold_str s) p.
Proof.
  revert s. induction p as [|a p IH]; intros s Hp; [done|].
  simpl in Hp. apply andb_true_iff in Hp as [Ha Hp].
  destruct s as [|c s]; [done|].
  simpl codes. simpl upper. rewrite prefix_codes_upper_char by done.
  simpl. by rewrite IH.
Qed.

Lemma contains_codes_skip a q ns l :
  cc_by_code (code a) = true →
  forallb (λ n, negb (cc_by_code n)) ns = true →
  contains_codes (ns ++ l) (code a :: q) = contains_codes l (code a :: q).
Proof.
  intros Ha. induction ns as [|n ns IH]; intros Hall; [done|].
  simpl in Hall. apply andb_true_iff in Hall as [Hn Hall].
  apply negb_true_iff in Hn.
  change ((n :: ns) ++ l) with (n :: ns ++ l). cbn [contains_codes].
  rewrite IH by done. cbn [prefix_codes].
  by rewrite (cc_by_code_neq _ _ Ha Hn).
Qed.

Lemma contains_codes_upper_char a q c l :
  cc_by_code (code a) = true →
  contains_codes (upper_char c ++ l) (code a :: q)
  = prefix_codes (code a :: q) (upper_char c ++ l)
    || contains_codes l (code a :: q).
Proof.
  intros Ha. pose proof (upper_agrees_all c) as Hc. unfold upper_agrees in Hc.
  destruct (upper_char c) as [|n [|n' ns]]; simpl in Hc.
  - by rewrite andb_false_r in Hc.
  - done.
  - apply andb_true_iff in Hc as [[[_ Hall]%andb_true_iff _]%andb_true_iff _].
    change ((n :: n' :: ns) ++ l) with (n :: (n' :: ns) ++ l).
    cbn [contains_codes]. f_equal.
    by apply contains_codes_skip.
Qed.

(** The test the code makes on the capitalised licence is containment
    of the needle with the letters folded. *)
Lemma upper_contains_cc_by s :
  contains_codes (upper s) (codes "CC-BY") = contains_ignoring_case s "CC-BY".
Proof.
  unfold contains_ignoring_case.
  change (fold_str "CC-BY") with "CC-BY".
  induction s as [|c s IH].
  - reflexivity.
  - simpl upper. change (codes "CC-BY") with (code "C"%char :: codes "C-BY").
    rewrite contains_codes_upper_char by reflexivity.
    change (code "C"%char :: codes "C-BY") with (codes "CC-BY").
    rewrite IH.
    change (upper_char c ++ upper s) with (upper (String c s)).
    by rewrite prefix_codes_upper.
Qed.

Lemma default_metadata_copyright version cff :
  default_metadata version cff !! "Copyright" = Some (copyright_of cff).
Proof.
  unfold default_metadata.
  destruct (nonempty (creation_date_of cff)), (nonempty (doi_of cff));
    by map_lookup.
Qed.

(** C7.  [Copyright] is the fixed CC BY 4.0 wording whenever the licence
    of the record contains CC-BY, letters compared without regard to
    case, and the licence verbatim otherwise; a record without a licence
    is treated as one whose licence is CC-BY-4.0, and so gets the fixed
    wording.  The overrides leave the field alone. *)
Theorem copyright_by_licence version cff args :
  let md := default_metadata version cff in
  md !! "Copyright" =
    Some (if contains_ignoring_case (license_str_of cff) "CC-BY"
          then cc_by_literal else license_str_of cff) ∧
  (∀ s, cff !! "license" = Some (VStr s) → s ≠ "" → license_str_of cff = s) ∧
  (cff !! "license" = None → license_str_of cff = "CC-BY-4.0") ∧
  (cff !! "license" = None → md !! "Copyright" = Some cc_by_literal) ∧
  apply_overrides args md !! "Copyright" = md !! "Copyright".
Proof.
  intros md.
  assert (Hc : md !! "Copyright" =
            Some (if contains_ignoring_case (license_str_of cff) "CC-BY"
                  then cc_by_literal else license_str_of cff)).
  { unfold md. rewrite default_metadata_copyright.
    unfold copyright_of. by rewrite upper_contains_cc_by. }
  rewrite Hc. split_and!.
  - done.
  - intros s Hs Hne. unfold license_str_of, str_or. rewrite Hs. simpl.
    by destruct s.
  - intros Hn. unfold license_str_of, str_or. by rewrite Hn.
  - intros Hn. unfold license_str_of, str_or. by rewrite Hn.
  - rewrite <- Hc. by apply apply_overrides_lookup_ne.
Qed.

Lemma copyright_by_licence_witness :
  default_metadata ∅ {["license" := VStr "cc-by-4.0"]} !! "Copyright"
    = Some cc_by_literal
  ∧ default_metadata ∅ {["license" := VStr "MIT"]} !! "Copyright" = Some "MIT"
  ∧ default_metadata ∅ ∅ !! "Copyright" = Some cc_by_literal.
Proof.
  split_and!.
  - destruct (copyright_by_licence ∅ {["license" := VStr "cc-by-4.0"]}
                no_overrides) as (H & Hs & _).
    rewrite H, (Hs "cc-by-4.0"); [reflexivity | reflexivity | discriminate].
  - destruct (copyright_by_licence ∅ {["license" := VStr "MIT"]}
                no_overrides) as (H & Hs & _).
    rewrite H, (Hs "MIT"); [reflexivity | reflexivity | discriminate].
  - destruct (copyright_by_licence ∅ ∅ no_overrides) as (_ & _ & _ & H & _).
    apply H. reflexivity.
Defined.


(** *** Producer and Keywords *)

Lemma default_metadata_producer version cff :
  default_metadata version cff !! "Producer" = Some (producer_of version cff).
Proof.
  unfold default_metadata.
  destruct (nonempty (creation_date_of cff)), (nonempty (doi_of cff));
    by map_lookup.
Qed.

Lemma default_metadata_keywords version cff :
  default_metadata version cff !! "Keywords" = Some (keywords_of version cff).
Proof.
  unfold default_metadata.
  destruct (nonempty (creation_date_of cff)), (nonempty (doi_of cff));
    by map_lookup.
Qed.

(** C3, as the specification states it, fails: with a codename in the
    version descriptor, no version there, and a version in the citation
    record, both fields carry the suffix. *)
Lemma producer_suffix_without_descriptor_version :
  let version : gmap string jvalue := {["codename" := JStr "Alpha"]} in
  let cff : gmap string pyval := {["version" := VStr "1.0"]} in
  version !! "version" = None
  ∧ default_metadata version cff !! "Producer"
    = Some "TEP-EXP Research Project (Alpha v1.0)"
  ∧ default_metadata version cff !! "Producer" ≠ Some producer_label
  ∧ default_metadata version cff !! "Keywords" = Some "Alpha v1.0"
  ∧ join "; " (keywords_list_of cff) = "".
Proof. vm_compute. split_and!; (reflexivity || discriminate). Qed.

(** C3, amended.  The suffix is there exactly when the version
    descriptor has a codename that counts as true and a version is to be
    had, from the version descriptor or, failing that, from the version
    field of the citation record.  [Producer] is then the fixed label
    followed by the codename and version in brackets, and [Keywords] the
    joined keyword list of the record with the codename and version as one
    more segment; otherwise [Producer] is the bare label and [Keywords]
    the joined list alone.  The overrides leave both fields alone. *)
Theorem producer_and_keywords_suffix version cff args :
  let md := default_metadata version cff in
  let codename := codename_of version in
  let vnum := vnum_of version cff in
  let listed := join "; " (keywords_list_of cff) in
  md !! "Producer" =
    Some (if nonempty codename && nonempty vnum
          then producer_label +:+ " (" +:+ codename +:+ " v" +:+ vnum +:+ ")"
          else producer_label) ∧
  md !! "Keywords" =
    Some (if nonempty codename && nonempty vnum
          then if nonempty listed
               then listed +:+ "; " +:+ codename +:+ " v" +:+ vnum
               else codename +:+ " v" +:+ vnum
          else listed) ∧
  (md !! "Producer" = Some producer_label ↔
     nonempty codename && nonempty vnum = false) ∧
  (∀ j, version !! "codename" = Some j →
        codename = if j_truth j then j_str j else "") ∧
  (version !! "codename" = None → codename = "") ∧
  (∀ j, version !! "version" = Some j → j_truth j = true → vnum = j_str j) ∧
  (∀ j, version !! "version" = Some j → j_truth j = false →
        vnum = str_or (cff !! "version") "") ∧
  (version !! "version" = None → vnum = str_or (cff !! "version") "") ∧
  apply_overrides args md !! "Producer" = md !! "Producer" ∧
  apply_overrides args md !! "Keywords" = md !! "Keywords".
Proof.
  intros md codename vnum listed.
  assert (Hp : md !! "Producer" =
            Some (if nonempty codename && nonempty vnum
                  then producer_label +:+ " (" +:+ codename +:+ " v" +:+ vnum +:+ ")"
                  else producer_label)).
  { unfold md. rewrite default_metadata_producer. unfold producer_of.
    fold codename vnum. by destruct (nonempty codename && nonempty vnum). }
  assert (Hk : md !! "Keywords" =
            Some (if nonempty codename && nonempty vnum
                  then if nonempty listed
               then listed +:+ "; " +:+ codename +:+ " v" +:+ vnum
               else codename +:+ " v" +:+ vnum
                  else listed)).
  { unfold md. rewrite default_metadata_keywords. unfold keywords_of.
    fold codename vnum listed. by destruct (nonempty codename && nonempty vnum). }
  split_and!; try done.
  - rewrite Hp. destruct (nonempty codename && nonempty vnum); [|by split].
    split; [|done]. intros H. vm_compute in H. discriminate H.
  - intros j Hj. unfold codename, codename_of, jstr_or. by rewrite Hj.
  - intros Hj. unfold codename, codename_of, jstr_or. by rewrite Hj.
  - intros j Hj Ht. unfold vnum, vnum_of, jstr_or. by rewrite Hj, Ht.
  - intros j Hj Ht. unfold vnum, vnum_of, jstr_or. by rewrite Hj, Ht.
  - intros Hj. unfold vnum, vnum_of, jstr_or. by rewrite Hj.
  - by apply apply_overrides_lookup_ne.
  - by apply apply_overrides_lookup_ne.
Qed.

Lemma producer_and_keywords_suffix_witness :
  default_metadata {["codename" := JStr "Alpha"; "version" := JInt 2]}
                   {["keywords" := VList ["time"; "clocks"]]} !! "Keywords"
    = Some "time; clocks; Alpha v2"
  ∧ default_metadata {["version" := JInt 2]}
                     {["keywords" := VList ["time"; "clocks"]]} !! "Producer"
    = Some "TEP-EXP Research Project".
Proof.
  split.
  - destruct (producer_and_keywords_suffix
                {["codename" := JStr "Alpha"; "version" := JInt 2]}
                {["keywords" := VList ["time"; "clocks"]]} no_overrides)
      as (_ & H & _).
    rewrite H. vm_compute. reflexivity.
  - destruct (producer_and_keywords_suffix
                {["version" := JInt 2]}
                {["keywords" := VList ["time"; "clocks"]]} no_overrides)
      as (_ & _ & H & _).
    apply H. vm_compute. reflexivity.
Defined.

(** *** The DOI override *)

(** C1 does not hold of the code: the override replaces [Identifier],
    but [main] appends its segment to a [Subject] that already carries
    the segment of the record, so that [Subject] ends up with two. *)
Theorem doi_override_duplicates_subject_segment :
  let cff : gmap string pyval := {["doi" := VStr "10.1/old"]} in
  let args := Overrides (Some "10.2/new") None None None in
  final_metadata ∅ cff args !! "Identifier" = Some "10.2/new"
  ∧ default_metadata ∅ cff !! "Subject" = Some "DOI: 10.1/old"
  ∧ final_metadata ∅ cff args !! "Subject"
    = Some "DOI: 10.1/old DOI: 10.2/new".
Proof. vm_compute. split_and!; reflexivity. Qed.

(** The general shape of it: a non-empty override is written to
    [Identifier] and added to whatever [Subject] held before. *)
Lemma doi_override_appends version cff d :
  nonempty d = true →
  let md := default_metadata version cff in
  let args := Overrides (Some d) None None None in
  apply_overrides args md !! "Identifier" = Some d ∧
  ∀ subject, md !! "Subject" = Some subject → nonempty subject = true →
    apply_overrides args md !! "Subject"
    = Some (strip (subject +:+ " " +:+ "DOI: " +:+ d)).
Proof.
  intros Hd md args. unfold apply_overrides, args. simpl. rewrite Hd.
  unfold append_subject. rewrite lookup_insert_ne by discriminate.
  split.
  - destruct (md !! "Subject") as [s|]; [destruct (nonempty s)|];
      by map_lookup.
  - intros subject -> ->. by map_lookup.
Qed.


(** ** The citation extractor *)

(** *** No exception, and a bounded number of passes per line *)

Lemma startswith_after_colon s p :
  startswith s p = true → mem ":"%char p = true → is_Some (after_colon s).
Proof. intros Hs Hp. apply mem_after_colon. by apply (startswith_mem s p). Qed.

Lemma scalar_line_is_Some key stripped p st :
  startswith stripped p = true → mem ":"%char p = true →
  is_Some (scalar_line key stripped st).
Proof.
  intros Hs Hp. unfold scalar_line.
  destruct (startswith_after_colon _ _ Hs Hp) as [v ->]. simpl. eauto.
Qed.

Lemma author_scan_is_Some lines fam giv : is_Some (author_scan lines fam giv).
Proof.
  revert fam giv. induction lines as [|lj lines IH]; intros fam giv;
    cbn [author_scan].
  - eauto.
  - destruct (_ || _); [eauto|].
    set (s_key := strip (lstrip_chars "- " (strip lj))).
    assert (Hf : ∃ fam', (if startswith s_key "family-names:" && is_none fam
                          then v ← after_colon s_key; Some (Some (unquote v))
                          else Some fam) = Some fam').
    { destruct (startswith s_key "family-names:") eqn:Hs; simpl; [|eauto].
      destruct (is_none fam); [|eauto].
      destruct (startswith_after_colon _ _ Hs eq_refl) as [v ->]. simpl. eauto. }
    assert (Hg : ∃ giv', (if startswith s_key "given-names:" && is_none giv
                          then v ← after_colon s_key; Some (Some (unquote v))
                          else Some giv) = Some giv').
    { destruct (startswith s_key "given-names:") eqn:Hs; simpl; [|eauto].
      destruct (is_none giv); [|eauto].
      destruct (startswith_after_colon _ _ Hs eq_refl) as [v ->]. simpl. eauto. }
    destruct Hf as [fam' ->], Hg as [giv' ->]. simpl.
    destruct (_ && _); eauto.
Qed.

Lemma normal_line_is_Some line rest st : is_Some (normal_line line rest st).
Proof.
  unfold normal_line.
  repeat match goal with
         | |- is_Some (if ?b then _ else _) => destruct b eqn:?
         end;
    eauto using scalar_line_is_Some.
  destruct (author_scan_is_Some rest (first_author_family st)
              (first_author_given st)) as [[fam giv] ->].
  simpl. eauto.
Qed.

Lemma examine_normal n line rest st :
  in_abstract st = false → in_keywords st = false →
  examine (S n) line rest st = normal_line line rest st.
Proof.
  intros Ha Hk. simpl. unfold iteration. rewrite Ha, Hk.
  by destruct (normal_line line rest st).
Qed.

Lemma examine_abstract_capture n line rest st :
  in_abstract st = true → ends_abstract line = false →
  examine (S n) line rest st
  = Some (with_abstract_lines (abstract_lines st ++ [dedent line]) st).
Proof. intros Ha He. simpl. unfold iteration. by rewrite Ha, He. Qed.

Lemma examine_abstract_end n line rest st :
  in_abstract st = true → ends_abstract line = true →
  examine (S n) line rest st = examine n line rest (close_abstract st).
Proof. intros Ha He. simpl. unfold iteration. by rewrite Ha, He. Qed.

Lemma examine_keyword_entry n line rest st :
  in_abstract st = false → in_keywords st = true →
  startswith (strip line) "-" = true →
  examine (S n) line rest st
  = Some (if nonempty (keyword_of (strip line))
          then with_keywords (keywords st ++ [keyword_of (strip line)]) st
          else st).
Proof. intros Ha Hk Hm. simpl. unfold iteration. by rewrite Ha, Hk, Hm. Qed.

Lemma examine_keyword_end n line rest st :
  in_abstract st = false → in_keywords st = true →
  startswith (strip line) "-" = false →
  examine (S n) line rest st = examine n line rest (with_in_keywords false st).
Proof. intros Ha Hk Hm. simpl. unfold iteration. by rewrite Ha, Hk, Hm. Qed.

(** A line that ends whatever capture is going on reaches the
    normal-mode part of the body within three passes. *)
Lemma examine_settle n line rest st :
  (in_abstract st = true → ends_abstract line = true) →
  (in_keywords st = true → startswith (strip line) "-" = false) →
  examine (3 + n) line rest st = normal_line line rest (settle st).
Proof.
  intros Ha Hk. unfold settle. change (3 + n) with (S (S (S n))).
  destruct (in_abstract st) eqn:Hia.
  - rewrite examine_abstract_end by auto.
    change (in_keywords (close_abstract st)) with (in_keywords st).
    destruct (in_keywords st) eqn:Hik.
    + rewrite examine_keyword_end by auto. by rewrite examine_normal.
    + by rewrite examine_normal.
  - destruct (in_keywords st) eqn:Hik.
    + rewrite examine_keyword_end by auto. by rewrite examine_normal.
    + by rewrite examine_normal.
Qed.

(** Three passes settle every line in every state, and a larger budget
    gives the same result. *)
Lemma examine_budget n line rest st :
  is_Some (examine 3 line rest st)
  ∧ examine (3 + n) line rest st = examine 3 line rest st.
Proof.
  change (3 + n) with (S (S (S n))).
  destruct (in_abstract st) eqn:Hia.
  - destruct (ends_abstract line) eqn:He.
    + rewrite !(examine_abstract_end _ line rest st) by done.
      destruct (in_keywords st) eqn:Hik.
      * destruct (startswith (strip line) "-") eqn:Hm.
        -- rewrite !(examine_keyword_entry _ line rest (close_abstract st)) by done.
           eauto.
        -- rewrite !(examine_keyword_end _ line rest (close_abstract st)) by done.
           rewrite !examine_normal by done. split; [|done].
           apply normal_line_is_Some.
      * rewrite !examine_normal by done. split; [|done].
        apply normal_line_is_Some.
    + rewrite !examine_abstract_capture by done. eauto.
  - destruct (in_keywords st) eqn:Hik.
    + destruct (startswith (strip line) "-") eqn:Hm.
      * rewrite !examine_keyword_entry by done. eauto.
      * rewrite !(examine_keyword_end _ line rest st) by done.
        rewrite !examine_normal by done. split; [|done].
        apply normal_line_is_Some.
    + rewrite !examine_normal by done.
      split; [|done]. apply normal_line_is_Some.
Qed.

Lemma loop_is_Some lines st : is_Some (loop lines st).
Proof.
  revert st. induction lines as [|line rest IH]; intros st; cbn [loop];
    [eauto|].
  destruct (examine_budget 0 line rest st) as [[st' Hst'] _].
  rewrite Hst'. apply IH.
Qed.

(** C10.  On every text the extractor returns a record: no subscript
    after a split is out of range, and no line is examined more than
    three times, so that the loop comes to its end.  A larger budget of
    passes per line would give the same result.  The function reads its
    argument and nothing else. *)
Theorem parse_citation_cff_total cff_text :
  (∃ record, _parse_citation_cff cff_text = Some record)
  ∧ ∀ n line rest st,
      is_Some (examine 3 line rest st)
      ∧ examine (3 + n) line rest st = examine 3 line rest st.
Proof.
  split.
  - unfold _parse_citation_cff.
    destruct (loop_is_Some (splitlines cff_text) initial) as [st ->].
    simpl. eauto.
  - intros. apply examine_budget.
Qed.


(** *** What a pass through the normal-mode part can do *)

Lemma scalar_line_inv key stripped st st' :
  scalar_line key stripped st = Some st' →
  ∃ v, after_colon stripped = Some v
       ∧ st' = with_data (set_scalar key v (data st)) st.
Proof.
  unfold scalar_line. destruct (after_colon stripped) as [v|]; simpl;
    [|discriminate].
  intros [= <-]. eauto.
Qed.

Lemma normal_line_inv line rest st st' :
  normal_line line rest st = Some st' →
  st' = with_in_abstract true st
  ∨ st' = with_in_keywords true st
  ∨ (∃ p key v, (p, key) ∈ scalar_prefixes
       ∧ startswith (strip line) p = true
       ∧ after_colon (strip line) = Some v
       ∧ st' = with_data (set_scalar key v (data st)) st)
  ∨ (startswith (strip line) "authors:" = true
       ∧ ∃ fam giv,
           author_scan rest (first_author_family st) (first_author_given st)
             = Some (fam, giv)
           ∧ st' = with_authors fam giv st)
  ∨ st' = st.
Proof.
  unfold normal_line.
  repeat match goal with
         | |- (if ?b then _ else _) = _ → _ => destruct b eqn:?
         end;
    try (intros [v [Hv ->]]%scalar_line_inv; do 2 right; left;
         eexists _, _, v; split_and!; [|eassumption|done|done];
         unfold scalar_prefixes; set_solver).
  - intros [= <-]. auto.
  - intros [= <-]. auto.
  - destruct (author_scan rest _ _) as [[fam giv]|] eqn:Hs; simpl;
      [|discriminate].
    intros [= <-]. do 3 right. left. eauto.
  - intros [= <-]. auto 6.
Qed.

Lemma loop_cons line rest st :
  loop (line :: rest) st = examine 3 line rest st ≫= loop rest.
Proof. reflexivity. Qed.

(** The two capture modes never hold together. *)
Lemma normal_line_exclusive line rest st st' :
  normal_line line rest st = Some st' →
  in_abstract st = false → in_keywords st = false →
  in_abstract st' && in_keywords st' = false.
Proof.
  intros H Ha Hk.
  apply normal_line_inv in H
    as [->|[->|[(p & key & v & _ & _ & _ & ->)|[(_ & fam & giv & _ & ->)| ->]]]];
    simpl; rewrite ?Ha, ?Hk; done.
Qed.

Lemma examine_exclusive line rest st st' :
  examine 3 line rest st = Some st' →
  in_abstract st && in_keywords st = false →
  in_abstract st' && in_keywords st' = false.
Proof.
  destruct (in_abstract st) eqn:Hia.
  - intros H Hik. simpl in Hik. destruct (ends_abstract line) eqn:He.
    + rewrite examine_abstract_end, examine_normal in H by done.
      by apply normal_line_exclusive in H.
    + rewrite examine_abstract_capture in H by done.
      injection H as <-. simpl. by rewrite Hia, Hik.
  - intros H _. destruct (in_keywords st) eqn:Hik.
    + destruct (startswith (strip line) "-") eqn:Hm.
      * rewrite examine_keyword_entry in H by done. injection H as <-.
        destruct (nonempty _); simpl; by rewrite Hia.
      * rewrite examine_keyword_end, examine_normal in H by done.
        by apply normal_line_exclusive in H.
    + rewrite examine_normal in H by done.
      by apply normal_line_exclusive in H.
Qed.

Lemma loop_exclusive lines st st' :
  loop lines st = Some st' →
  in_abstract st && in_keywords st = false →
  in_abstract st' && in_keywords st' = false.
Proof.
  revert st. induction lines as [|line rest IH]; intros st.
  - by intros [= <-].
  - rewrite loop_cons.
    destruct (examine 3 line rest st) as [st1|] eqn:H1; [|discriminate].
    simpl. intros H Hex. apply (IH _ H). by apply (examine_exclusive _ _ _ _ H1).
Qed.

(** *** The abstract block *)

Lemma loop_abstract_capture block rest st :
  in_abstract st = true →
  Forall (λ l, ends_abstract l = false) block →
  loop (block ++ rest) st
  = loop rest (with_abstract_lines (abstract_lines st ++ (dedent <$> block)) st).
Proof.
  intros Ha Hb. revert st Ha.
  induction Hb as [|line block Hl Hb IH]; intros st Ha.
  - simpl. rewrite app_nil_r. by destruct st.
  - change ((line :: block) ++ rest) with (line :: block ++ rest).
    rewrite loop_cons, examine_abstract_capture by done. simpl.
    rewrite IH by done. simpl. by rewrite <- app_assoc.
Qed.

Lemma finish_abstract st :
  finish st !! "abstract" =
  if in_abstract st && negb (bool_decide (abstract_lines st = []))
  then Some (VStr (strip (join newline (abstract_lines st))))
  else data st !! "abstract".
Proof.
  unfold finish.
  destruct (in_abstract st && negb (bool_decide (abstract_lines st = [])));
    destruct (negb (bool_decide (keywords st = [])));
    destruct (truthy (first_author_family st) || truthy (first_author_given st));
    by map_lookup.
Qed.

(** C5, as the specification states it, fails at the end of input: when
    the text ends in capture mode before any line was captured, nothing
    is committed, and an abstract closed earlier stays in the record. *)
Lemma abstract_not_committed_when_nothing_captured :
  let text := join newline ["abstract: >"; "  old"; "title: t"; "abstract: >"] in
  (∃ st, loop (splitlines text) initial = Some st
         ∧ in_abstract st = true
         ∧ abstract_lines st = []
         ∧ strip (join newline (abstract_lines st)) = "")
  ∧ (_parse_citation_cff text ≫= (.!! "abstract")) = Some (VStr "old")
  ∧ (_parse_citation_cff "abstract: >" ≫= (.!! "abstract")) = None.
Proof.
  split_and!.
  - eexists. split; [vm_compute; reflexivity|]. by vm_compute.
  - vm_compute. reflexivity.
  - vm_compute. reflexivity.
Qed.

(** C5, amended.  While the abstract is captured, every line that is
    indented by two spaces, or blank, or without a colon is added to the
    captured lines, less one leading indent of two spaces if it has one.
    The first other line ends the capture: the captured lines, joined by
    newlines and trimmed, become the abstract, and the line itself goes
    through the normal-mode part of the loop body.  When the input ends
    during the capture, the captured lines are committed in the same way
    provided there is at least one; with none, the record keeps whatever
    abstract it had. *)
Theorem abstract_capture_mode :
  (∀ block rest st,
     in_abstract st = true →
     Forall (λ l, ends_abstract l = false) block →
     loop (block ++ rest) st
     = loop rest
         (with_abstract_lines (abstract_lines st ++ (dedent <$> block)) st))
  ∧ (∀ l, dedent ("  " +:+ l) = l)
  ∧ (∀ l, startswith l "  " = false → dedent l = l)
  ∧ (∀ l, ends_abstract l =
          negb (startswith l "  ") && nonempty (strip l) && contains l ":")
  ∧ (∀ line rest st,
       in_abstract st = true → in_keywords st = false →
       ends_abstract line = true →
       examine 3 line rest st = normal_line line rest (close_abstract st)
       ∧ data (close_abstract st) !! "abstract"
         = Some (VStr (strip (join newline (abstract_lines st))))
       ∧ in_abstract (close_abstract st) = false
       ∧ in_keywords (close_abstract st) = false
       ∧ abstract_lines (close_abstract st) = [])
  ∧ (∀ lines st,
       loop lines initial = Some st → in_abstract st = true →
       in_keywords st = false)
  ∧ (∀ st,
       in_abstract st = true → abstract_lines st ≠ [] →
       finish st !! "abstract"
       = Some (VStr (strip (join newline (abstract_lines st)))))
  ∧ (∀ st,
       in_abstract st = true → abstract_lines st = [] →
       finish st !! "abstract" = data st !! "abstract")
  ∧ (∀ cff_text st,
       loop (splitlines cff_text) initial = Some st →
       in_abstract st = true → abstract_lines st ≠ [] →
       _parse_citation_cff cff_text ≫= (.!! "abstract")
       = Some (VStr (strip (join newline (abstract_lines st))))).
Proof.
  split_and!.
  - apply loop_abstract_capture.
  - done.
  - intros l Hl. unfold dedent. by rewrite Hl.
  - done.
  - intros line rest st Ha Hk He. split_and!; try done.
    + rewrite (examine_abstract_end 2), examine_normal by done. done.
    + simpl. by map_lookup.
  - intros lines st Hl Ha.
    apply loop_exclusive in Hl; [|done]. by rewrite Ha in Hl.
  - intros st Ha Hl. rewrite finish_abstract, Ha.
    by rewrite bool_decide_eq_false_2.
  - intros st Ha Hl. rewrite finish_abstract, Ha.
    by rewrite bool_decide_eq_true_2.
  - intros cff_text st Hst Ha Hl. unfold _parse_citation_cff.
    rewrite Hst. simpl. rewrite finish_abstract, Ha.
    by rewrite bool_decide_eq_false_2.
Qed.

Lemma abstract_capture_mode_witness :
  loop ["  Clocks and"; ""; "  rods: a study"; "title: T"]
       (with_in_abstract true initial)
  = loop ["title: T"]
       (with_abstract_lines ["Clocks and"; ""; "rods: a study"]
          (with_in_abstract true initial))
  ∧ examine 3 "title: T" []
      (with_abstract_lines ["Clocks and"] (with_in_abstract true initial))
    = normal_line "title: T" []
        (close_abstract
           (with_abstract_lines ["Clocks and"] (with_in_abstract true initial))).
Proof.
  destruct abstract_capture_mode as (H1 & _ & _ & _ & H5 & _).
  split.
  - apply (H1 ["  Clocks and"; ""; "  rods: a study"] ["title: T"]).
    + reflexivity.
    + repeat constructor.
  - apply H5; reflexivity.
Defined.


(** *** Which keys a line can write *)

Lemma set_scalar_lookup_ne key v (d : gmap string pyval) k :
  k ≠ key → set_scalar key v d !! k = d !! k.
Proof.
  intros Hk. unfold set_scalar. destruct (nonempty (unquote v)); [|done].
  by rewrite lookup_insert_ne.
Qed.

Lemma set_scalar_lookup key v (d : gmap string pyval) :
  set_scalar key v d !! key =
  if nonempty (unquote v) then Some (VStr (unquote v)) else d !! key.
Proof.
  unfold set_scalar. destruct (nonempty (unquote v)); [|done].
  by rewrite lookup_insert_eq.
Qed.

Lemma normal_line_data_other line rest st st' k :
  normal_line line rest st = Some st' →
  (∀ p, (p, k) ∈ scalar_prefixes → startswith (strip line) p = false) →
  data st' !! k = data st !! k.
Proof.
  intros H Hk.
  apply normal_line_inv in H
    as [->|[->|[(p & key & v & Hin & Hp & _ & ->)|[(_ & fam & giv & _ & ->)| ->]]]];
    try done.
  simpl. apply set_scalar_lookup_ne. intros ->.
  specialize (Hk p Hin). congruence.
Qed.

(** Apart from the abstract, a key is written only by a line that
    begins with its prefix. *)
Lemma examine_data_other line rest st st' k :
  examine 3 line rest st = Some st' →
  k ≠ "abstract" →
  (∀ p, (p, k) ∈ scalar_prefixes → startswith (strip line) p = false) →
  data st' !! k = data st !! k.
Proof.
  intros H Hka Hk.
  assert (Hclose : data (close_abstract st) !! k = data st !! k).
  { simpl. by rewrite lookup_insert_ne. }
  destruct (in_abstract st) eqn:Hia.
  - destruct (ends_abstract line) eqn:He.
    + rewrite examine_abstract_end in H by done.
      destruct (in_keywords st) eqn:Hik.
      * destruct (startswith (strip line) "-") eqn:Hm.
        -- rewrite examine_keyword_entry in H by done. injection H as <-.
           by destruct (nonempty _).
        -- rewrite examine_keyword_end, examine_normal in H by done.
           by rewrite (normal_line_data_other _ _ _ _ _ H Hk).
      * rewrite examine_normal in H by done.
        by rewrite (normal_line_data_other _ _ _ _ _ H Hk).
    + rewrite examine_abstract_capture in H by done. by injection H as <-.
  - destruct (in_keywords st) eqn:Hik.
    + destruct (startswith (strip line) "-") eqn:Hm.
      * rewrite examine_keyword_entry in H by done. injection H as <-.
        by destruct (nonempty _).
      * rewrite examine_keyword_end, examine_normal in H by done.
        by rewrite (normal_line_data_other _ _ _ _ _ H Hk).
    + rewrite examine_normal in H by done.
      by rewrite (normal_line_data_other _ _ _ _ _ H Hk).
Qed.

Lemma loop_data_other lines st st' k :
  loop lines st = Some st' →
  k ≠ "abstract" →
  Forall (λ line, ∀ p, (p, k) ∈ scalar_prefixes →
                       startswith (strip line) p = false) lines →
  data st' !! k = data st !! k.
Proof.
  intros H Hka Hl. revert st H.
  induction Hl as [|line rest Hline Hl IH]; intros st.
  - by intros [= <-].
  - rewrite loop_cons.
    destruct (examine 3 line rest st) as [st1|] eqn:H1; [|discriminate].
    simpl. intros H. rewrite (IH _ H).
    by apply (examine_data_other _ _ _ _ _ H1).
Qed.

(** The loop never writes the two keys that are set after it. *)
Lemma loop_data_late lines st st' k :
  loop lines st = Some st' →
  k = "keywords" ∨ k = "author" →
  data st' !! k = data st !! k.
Proof.
  intros H Hk. apply (loop_data_other lines); [done| |].
  - by destruct Hk as [-> | ->].
  - apply Forall_forall. intros line _ p Hp. exfalso.
    apply list_elem_of_In in Hp. simpl in Hp.
    destruct Hk as [-> | ->]; intuition discriminate.
Qed.

(** *** The keyword block *)

Lemma loop_keyword_entries block rest st :
  in_abstract st = false → in_keywords st = true →
  Forall (λ l, startswith (strip l) "-" = true) block →
  loop (block ++ rest) st
  = loop rest
      (with_keywords
         (keywords st
          ++ filter (λ kw, nonempty kw = true)
               ((λ l, keyword_of (strip l)) <$> block)) st).
Proof.
  intros Ha Hk Hb. revert st Ha Hk.
  induction Hb as [|line block Hl Hb IH]; intros st Ha Hk.
  - simpl. rewrite app_nil_r. by destruct st.
  - change ((line :: block) ++ rest) with (line :: block ++ rest).
    rewrite loop_cons, examine_keyword_entry by done.
    cbn [mbind option_bind]. rewrite fmap_cons, filter_cons.
    destruct (nonempty (keyword_of (strip line))) eqn:Hkw.
    + rewrite decide_True by done. rewrite IH by done. simpl.
      by rewrite <- app_assoc.
    + rewrite decide_False by congruence. by rewrite IH.
Qed.

Lemma finish_keywords st :
  finish st !! "keywords" =
  if bool_decide (keywords st = []) then data st !! "keywords"
  else Some (VList (keywords st)).
Proof.
  unfold finish.
  destruct (in_abstract st && negb (bool_decide (abstract_lines st = [])));
    destruct (bool_decide (keywords st = []));
    destruct (truthy (first_author_family st) || truthy (first_author_given st));
    simpl; by map_lookup.
Qed.

(** C9, as the specification states it, fails: a marked line whose
    remainder is empty adds nothing, so that three marked lines can give
    fewer than three keywords. *)
Lemma empty_keyword_entry_skipped :
  let block := ["  -"; "  - a"; "  - b"] in
  Forall (λ l, startswith (strip l) "-" = true) block
  ∧ (λ l, keyword_of (strip l)) <$> block = [""; "a"; "b"]
  ∧ (_parse_citation_cff (join newline ("keywords:" :: block))
       ≫= (.!! "keywords")) = Some (VList ["a"; "b"]).
Proof.
  split_and!.
  - repeat constructor.
  - vm_compute. reflexivity.
  - vm_compute. reflexivity.
Qed.

(** C9, amended.  In keyword-capture mode every line whose trimmed form
    begins with the marker adds its remainder (marker, surrounding
    whitespace and quotes removed) to the keyword sequence, in source
    order, unless that remainder is empty, in which case the line adds
    nothing and the capture goes on.  The first line without the marker
    ends the mode and goes through the normal-mode part of the loop body.
    The record has a keywords entry, holding the whole sequence, exactly
    when the sequence is not empty. *)
Theorem keyword_capture_mode :
  (∀ block rest st,
     in_abstract st = false → in_keywords st = true →
     Forall (λ l, startswith (strip l) "-" = true) block →
     loop (block ++ rest) st
     = loop rest
         (with_keywords
            (keywords st
             ++ filter (λ kw, nonempty kw = true)
                  ((λ l, keyword_of (strip l)) <$> block)) st))
  ∧ (∀ line rest st,
       in_abstract st = false → in_keywords st = true →
       startswith (strip line) "-" = false →
       examine 3 line rest st
       = normal_line line rest (with_in_keywords false st))
  ∧ (∀ cff_text st,
       loop (splitlines cff_text) initial = Some st →
       _parse_citation_cff cff_text ≫= (.!! "keywords")
       = if bool_decide (keywords st = []) then None
         else Some (VList (keywords st)))
  ∧ (∀ block,
       Forall (λ l, startswith (strip l) "-" = true) block →
       ∃ st, loop ("keywords:" :: block) initial = Some st
             ∧ keywords st
               = filter (λ kw, nonempty kw = true)
                   ((λ l, keyword_of (strip l)) <$> block)).
Proof.
  split_and!.
  - apply loop_keyword_entries.
  - intros line rest st Ha Hk Hm.
    by rewrite (examine_keyword_end 2), examine_normal.
  - intros cff_text st Hst. unfold _parse_citation_cff. rewrite Hst. simpl.
    rewrite finish_keywords.
    by rewrite (loop_data_late _ _ _ "keywords" Hst) by auto.
  - intros block Hb. eexists. split.
    + rewrite loop_cons. rewrite (examine_normal 2) by done.
      change (normal_line "keywords:" block initial)
        with (Some (with_in_keywords true initial)).
      simpl. rewrite <- (app_nil_r block) at 1.
      rewrite loop_keyword_entries by done. reflexivity.
    + reflexivity.
Qed.

Lemma keyword_capture_mode_witness :
  ∃ st, loop ["keywords:"; "  - time"; "  - 'proper time'"; "  - clocks"]
             initial = Some st
        ∧ keywords st = ["time"; "proper time"; "clocks"].
Proof.
  destruct keyword_capture_mode as (_ & _ & _ & H).
  destruct (H ["  - time"; "  - 'proper time'"; "  - clocks"]) as (st & Hst & Hk).
  - repeat constructor.
  - exists st. split; [exact Hst|]. rewrite Hk. vm_compute. reflexivity.
Defined.


(** *** Scalar lines *)

Ltac scalar_prefix_cases H :=
  apply list_elem_of_In in H; simpl in H;
  repeat (destruct H as [H|H]; [injection H as <- <-|]); [..|destruct H].

Lemma scalar_prefixes_functional p p' key :
  (p, key) ∈ scalar_prefixes → (p', key) ∈ scalar_prefixes → p = p'.
Proof.
  intros H H'. scalar_prefix_cases H;
    (apply list_elem_of_In in H'; simpl in H'; intuition congruence).
Qed.

Lemma scalar_prefixes_key p key :
  (p, key) ∈ scalar_prefixes →
  key ≠ "abstract" ∧ key ≠ "keywords" ∧ key ≠ "author".
Proof. intros H. scalar_prefix_cases H; by split_and!. Qed.

(** In the normal-mode part, a line that begins with a scalar prefix
    hands the text after the prefix to [set_scalar]. *)
Lemma normal_line_scalar p key line rest st :
  (p, key) ∈ scalar_prefixes →
  startswith (strip line) p = true →
  normal_line line rest st
  = Some (with_data
            (set_scalar key (drop_str (String.length p) (strip line)) (data st))
            st).
Proof.
  intros Hin [r Hr]%startswith_app. unfold normal_line, scalar_line.
  rewrite Hr. scalar_prefix_cases Hin; reflexivity.
Qed.

Lemma scalar_prefix_no_marker p key s :
  (p, key) ∈ scalar_prefixes → startswith s p = true →
  startswith s "-" = false ∧ nonempty s = true ∧ mem ":"%char s = true.
Proof.
  intros Hin Hs. split_and!.
  - apply startswith_app in Hs as [r ->]. scalar_prefix_cases Hin; reflexivity.
  - apply startswith_app in Hs as [r ->]. scalar_prefix_cases Hin; reflexivity.
  - apply (startswith_mem _ _ _ Hs). scalar_prefix_cases Hin; reflexivity.
Qed.

Lemma scalar_prefix_ends_abstract p key line :
  (p, key) ∈ scalar_prefixes → startswith (strip line) p = true →
  startswith line "  " = false → ends_abstract line = true.
Proof.
  intros Hin Hs Hi.
  destruct (scalar_prefix_no_marker _ _ _ Hin Hs) as (_ & Hne & Hc).
  unfold ends_abstract. rewrite Hi, Hne, contains_single. simpl.
  by apply strip_by_mem in Hc.
Qed.

Lemma finish_lookup_other st k :
  k ≠ "abstract" → k ≠ "keywords" → k ≠ "author" →
  finish st !! k = data st !! k.
Proof.
  intros Ha Hk Hu. unfold finish.
  destruct (in_abstract st && negb (bool_decide (abstract_lines st = [])));
    destruct (negb (bool_decide (keywords st = [])));
    destruct (truthy (first_author_family st) || truthy (first_author_given st));
    by rewrite ?lookup_insert_ne by done.
Qed.

Lemma settle_data_other st k :
  k ≠ "abstract" → data (settle st) !! k = data st !! k.
Proof.
  intros Hk. unfold settle. destruct (in_abstract st).
  - change (in_keywords (close_abstract st)) with (in_keywords st).
    destruct (in_keywords st); simpl; by rewrite lookup_insert_ne.
  - by destruct (in_keywords st).
Qed.

Lemma settle_modes st :
  in_abstract (settle st) = false ∧ in_keywords (settle st) = false.
Proof.
  unfold settle. destruct (in_abstract st) eqn:Ha.
  - change (in_keywords (close_abstract st)) with (in_keywords st).
    by destruct (in_keywords st) eqn:Hk.
  - by destruct (in_keywords st) eqn:Hk.
Qed.

(** C4, as the specification states it, fails in two ways.  The value is
    not freed of one layer of matching quotes: every quote at either end
    goes, matched or not.  And a line that begins with a scalar prefix
    sets nothing when it is an indented line of an abstract block. *)
Lemma scalar_line_counterexample :
  strip_one_quote_layer " 'x" = "'x"
  ∧ (_parse_citation_cff "title: 'x" ≫= (.!! "title")) = Some (VStr "x")
  ∧ startswith (strip "  title: x") "title:" = true
  ∧ (_parse_citation_cff (join newline ["abstract: >"; "  title: x"])
       ≫= (.!! "title")) = None
  ∧ (_parse_citation_cff (join newline ["abstract: >"; "  title: x"])
       ≫= (.!! "abstract")) = Some (VStr "title: x").
Proof. vm_compute. split_and!; reflexivity. Qed.

(** C4, amended.  A line whose trimmed form begins with a recognised
    scalar prefix, unless it is a line indented by two spaces met while
    the abstract is captured, ends any capture and hands the rest of the
    line to [set_scalar]: surrounding whitespace is stripped, then every
    double quote at either end, then every single quote at either end.
    When the result is empty the field is left as it was; otherwise it
    is overwritten, so that the last such line with a non-empty value
    decides the field of the record. *)
Theorem scalar_line_sets_field p key line rest st :
  (p, key) ∈ scalar_prefixes →
  startswith (strip line) p = true →
  (in_abstract st = true → startswith line "  " = false) →
  let v := unquote (drop_str (String.length p) (strip line)) in
  (∃ st1, examine 3 line rest st = Some st1
          ∧ data st1 !! key
            = (if nonempty v then Some (VStr v) else data st !! key)
          ∧ (∀ k, k ≠ key → k ≠ "abstract" → data st1 !! k = data st !! k)
          ∧ in_abstract st1 = false ∧ in_keywords st1 = false)
  ∧ (nonempty v = true →
     Forall (λ l, startswith (strip l) p = false) rest →
     ∃ st', loop (line :: rest) st = Some st'
            ∧ finish st' !! key = Some (VStr v)).
Proof.
  intros Hin Hs Hind v.
  destruct (scalar_prefix_no_marker _ _ _ Hin Hs) as (Hm & _ & _).
  destruct (scalar_prefixes_key _ _ Hin) as (Hka & Hkk & Hku).
  assert (Hex : examine 3 line rest st
                = Some (with_data
                          (set_scalar key
                             (drop_str (String.length p) (strip line))
                             (data (settle st)))
                          (settle st))).
  { rewrite (examine_settle 0), (normal_line_scalar p key) by
      eauto using scalar_prefix_ends_abstract. done. }
  split.
  - eexists. split; [exact Hex|]. simpl. split_and!.
    + rewrite set_scalar_lookup. fold v.
      by rewrite settle_data_other.
    + intros k Hk Hk'. by rewrite set_scalar_lookup_ne, settle_data_other.
    + apply settle_modes.
    + apply settle_modes.
  - intros Hv Hrest. rewrite loop_cons, Hex. simpl.
    destruct (loop_is_Some rest
                (with_data
                   (set_scalar key (drop_str (String.length p) (strip line))
                      (data (settle st)))
                   (settle st))) as [st' Hst'].
    exists st'. split; [done|].
    rewrite finish_lookup_other by done.
    rewrite (loop_data_other _ _ _ key Hst'); [|done|].
    + simpl. rewrite set_scalar_lookup. fold v. by rewrite Hv.
    + eapply Forall_impl; [exact Hrest|]. intros l Hl p' Hp'.
      by rewrite <- (scalar_prefixes_functional _ _ _ Hin Hp').
Qed.

Lemma scalar_line_sets_field_witness :
  ∃ st', loop ["doi: '10.5281/zenodo.1'"; "url: https://example.org"]
              (with_in_keywords true initial) = Some st'
         ∧ finish st' !! "doi" = Some (VStr "10.5281/zenodo.1").
Proof.
  destruct (scalar_line_sets_field "doi:" "doi" "doi: '10.5281/zenodo.1'"
              ["url: https://example.org"] (with_in_keywords true initial))
    as [_ H].
  - unfold scalar_prefixes. apply list_elem_of_In. simpl. auto.
  - reflexivity.
  - discriminate.
  - apply H.
    + reflexivity.
    + repeat constructor.
Defined.


(** *** The author *)

(** A scan fills only what is still [None]. *)
Lemma author_scan_keeps lines fam giv fam' giv' :
  author_scan lines fam giv = Some (fam', giv') →
  (∀ f, fam = Some f → fam' = Some f) ∧ (∀ g, giv = Some g → giv' = Some g).
Proof.
  revert fam giv. induction lines as [|lj lines IH]; intros fam giv;
    cbn [author_scan].
  - by intros [= <- <-].
  - destruct (_ || _); [by intros [= <- <-]|].
    set (s_key := strip (lstrip_chars "- " (strip lj))).
    destruct (if startswith s_key "family-names:" && is_none fam
              then v ← after_colon s_key; Some (Some (unquote v))
              else Some fam) as [fam1|] eqn:Hf; [|discriminate].
    destruct (if startswith s_key "given-names:" && is_none giv
              then v ← after_colon s_key; Some (Some (unquote v))
              else Some giv) as [giv1|] eqn:Hg; [|discriminate].
    cbn [mbind option_bind].
    assert (Hf1 : ∀ f, fam = Some f → fam1 = Some f).
    { intros f ->. simpl in Hf. rewrite andb_false_r in Hf. by injection Hf. }
    assert (Hg1 : ∀ g, giv = Some g → giv1 = Some g).
    { intros g ->. simpl in Hg. rewrite andb_false_r in Hg. by injection Hg. }
    destruct (truthy fam1 && truthy giv1).
    + by intros [= <- <-].
    + intros [H1 H2]%IH. split; eauto.
Qed.

(** What one line can do to the two names: nothing, unless it begins
    with the authors prefix and sets off a scan of the lines after it. *)
Lemma normal_line_authors_inv line rest st st' :
  normal_line line rest st = Some st' →
  (first_author_family st' = first_author_family st
   ∧ first_author_given st' = first_author_given st)
  ∨ (startswith (strip line) "authors:" = true
     ∧ author_scan rest (first_author_family st) (first_author_given st)
       = Some (first_author_family st', first_author_given st')).
Proof.
  intros H.
  apply normal_line_inv in H
    as [->|[->|[(p & key & v & _ & _ & _ & ->)|[(Hs & fam & giv & Hscan & ->)| ->]]]];
    auto.
Qed.

Lemma examine_authors_inv line rest st st' :
  examine 3 line rest st = Some st' →
  (first_author_family st' = first_author_family st
   ∧ first_author_given st' = first_author_given st)
  ∨ (startswith (strip line) "authors:" = true
     ∧ author_scan rest (first_author_family st) (first_author_given st)
       = Some (first_author_family st', first_author_given st')).
Proof.
  intros H.
  destruct (in_abstract st) eqn:Hia.
  - destruct (ends_abstract line) eqn:He.
    + rewrite examine_abstract_end in H by done.
      destruct (in_keywords st) eqn:Hik.
      * destruct (startswith (strip line) "-") eqn:Hm.
        -- rewrite examine_keyword_entry in H by done. injection H as <-.
           left. by destruct (nonempty _).
        -- rewrite examine_keyword_end, examine_normal in H by done.
           by apply normal_line_authors_inv in H.
      * rewrite examine_normal in H by done.
        by apply normal_line_authors_inv in H.
    + rewrite examine_abstract_capture in H by done. injection H as <-. auto.
  - destruct (in_keywords st) eqn:Hik.
    + destruct (startswith (strip line) "-") eqn:Hm.
      * rewrite examine_keyword_entry in H by done. injection H as <-.
        left. by destruct (nonempty _).
      * rewrite examine_keyword_end, examine_normal in H by done.
        by apply normal_line_authors_inv in H.
    + rewrite examine_normal in H by done.
      by apply normal_line_authors_inv in H.
Qed.

(** A name, once captured, stays to the end of the loop. *)
Lemma loop_keeps_names lines st st' :
  loop lines st = Some st' →
  (∀ f, first_author_family st = Some f → first_author_family st' = Some f)
  ∧ (∀ g, first_author_given st = Some g → first_author_given st' = Some g).
Proof.
  revert st. induction lines as [|line rest IH]; intros st.
  - by intros [= <-].
  - rewrite loop_cons.
    destruct (examine 3 line rest st) as [st1|] eqn:H1; [|discriminate].
    cbn [mbind option_bind]. intros [Hf Hg]%IH.
    apply examine_authors_inv in H1 as [[Ef Eg]|[_ [Kf Kg]%author_scan_keeps]].
    + rewrite Ef in Hf. rewrite Eg in Hg. done.
    + split; eauto.
Qed.

(** Without a line that begins with the authors prefix no name is
    captured. *)
Lemma loop_no_authors lines st st' :
  loop lines st = Some st' →
  Forall (λ l, startswith (strip l) "authors:" = false) lines →
  first_author_family st' = first_author_family st
  ∧ first_author_given st' = first_author_given st.
Proof.
  intros H Hl. revert st H.
  induction Hl as [|line rest Hline Hl IH]; intros st.
  - by intros [= <-].
  - rewrite loop_cons.
    destruct (examine 3 line rest st) as [st1|] eqn:H1; [|discriminate].
    cbn [mbind option_bind]. intros [Hf Hg]%IH.
    apply examine_authors_inv in H1 as [[Ef Eg]|[Hs _]]; [|congruence].
    rewrite Hf, Hg. done.
Qed.

Lemma finish_author st :
  finish st !! "author" =
  if truthy (first_author_family st) || truthy (first_author_given st)
  then Some (VStr (join " " (filter (λ p, nonempty p = true)
               (omap id [first_author_given st; first_author_family st]))))
  else data st !! "author".
Proof.
  unfold finish.
  destruct (in_abstract st && negb (bool_decide (abstract_lines st = [])));
    destruct (negb (bool_decide (keywords st = [])));
    destruct (truthy (first_author_family st) || truthy (first_author_given st));
    by map_lookup.
Qed.

Lemma normal_line_authors line rest st :
  startswith (strip line) "authors:" = true →
  normal_line line rest st
  = '(fam, giv) ← author_scan rest (first_author_family st)
                                   (first_author_given st);
    Some (with_authors fam giv st).
Proof.
  intros [r Hr]%startswith_app. unfold normal_line. rewrite Hr. reflexivity.
Qed.

Lemma settle_names st :
  first_author_family (settle st) = first_author_family st
  ∧ first_author_given (settle st) = first_author_given st.
Proof.
  unfold settle. destruct (in_abstract st).
  - change (in_keywords (close_abstract st)) with (in_keywords st).
    by destruct (in_keywords st).
  - by destruct (in_keywords st).
Qed.

(** C8, as the specification states it, fails: the author need not come
    from the scan that follows the first authors line.  Here that scan
    meets no name before it stops, and the names are those found after
    the second authors line. *)
Lemma author_from_a_later_scan :
  let lines := ["authors:"; "  - name: The Team"; "preferred-citation:";
                "  authors:"; "    - family-names: Doe";
                "      given-names: Jane"] in
  author_scan (drop 1 lines) None None = Some (None, None)
  ∧ (_parse_citation_cff (join newline lines) ≫= (.!! "author"))
    = Some (VStr "Jane Doe").
Proof. vm_compute. split; reflexivity. Qed.

Lemma author_join_both f g :
  nonempty f = true → nonempty g = true →
  join " " (filter (λ p, nonempty p = true) (omap id [Some g; Some f]))
  = g +:+ " " +:+ f.
Proof.
  intros Hf Hg. cbn [omap list_omap id].
  rewrite filter_cons, decide_True, filter_cons, decide_True by done.
  reflexivity.
Qed.

Lemma authors_line_settles line :
  startswith (strip line) "authors:" = true →
  startswith (strip line) "-" = false
  ∧ (startswith line "  " = false → ends_abstract line = true).
Proof.
  intros Hs. split.
  - apply startswith_app in Hs as [r ->]. reflexivity.
  - intros Hi. unfold ends_abstract. rewrite Hi, contains_single.
    assert (Hc : mem ":"%char (strip line) = true)
      by (by apply (startswith_mem _ _ _ Hs)).
    apply strip_by_mem in Hc as Hc'. rewrite Hc', andb_true_r. simpl.
    apply startswith_app in Hs as [r ->]. reflexivity.
Qed.

(** C8, amended.  The record has at most one author.  It is put
    together after the loop from the two names held at that point: the
    given name and the family name joined by one space, or the one that
    is there; with neither there is no author entry.  A scan, set off by
    a line that begins with the authors prefix, fills a name only when
    no earlier line of any scan has filled it, so each name is the first
    of its kind that the scans meet, in the order of the document; it
    need not come from the scan after the first authors line.  An
    authors line met outside an abstract block, while no name is held,
    whose scan finds both names, decides the author.  A text with no
    line that begins with the authors prefix gives a record without an
    author. *)
Theorem first_author_only :
  (∀ st,
     finish st !! "author" =
     if truthy (first_author_family st) || truthy (first_author_given st)
     then Some (VStr (join " " (filter (λ p, nonempty p = true)
                  (omap id [first_author_given st; first_author_family st]))))
     else data st !! "author")
  ∧ (∀ f g, nonempty f = true → nonempty g = true →
       join " " (filter (λ p, nonempty p = true) (omap id [Some g; Some f]))
       = g +:+ " " +:+ f)
  ∧ (∀ f g, nonempty f = true → truthy g = false →
       join " " (filter (λ p, nonempty p = true) (omap id [g; Some f])) = f)
  ∧ (∀ f g, truthy f = false → nonempty g = true →
       join " " (filter (λ p, nonempty p = true) (omap id [Some g; f])) = g)
  ∧ (∀ lines fam giv fam' giv',
       author_scan lines fam giv = Some (fam', giv') →
       (∀ f, fam = Some f → fam' = Some f)
       ∧ (∀ g, giv = Some g → giv' = Some g))
  ∧ (∀ lines st st',
       loop lines st = Some st' →
       (∀ f, first_author_family st = Some f → first_author_family st' = Some f)
       ∧ (∀ g, first_author_given st = Some g →
               first_author_given st' = Some g))
  ∧ (∀ line rest st f g,
       startswith (strip line) "authors:" = true →
       (in_abstract st = true → startswith line "  " = false) →
       first_author_family st = None → first_author_given st = None →
       author_scan rest None None = Some (Some f, Some g) →
       nonempty f = true → nonempty g = true →
       ∃ st', loop (line :: rest) st = Some st'
              ∧ finish st' !! "author" = Some (VStr (g +:+ " " +:+ f)))
  ∧ (∀ cff_text,
       Forall (λ l, startswith (strip l) "authors:" = false)
              (splitlines cff_text) →
       _parse_citation_cff cff_text ≫= (.!! "author") = None).
Proof.
  split_and!.
  - apply finish_author.
  - apply author_join_both.
  - intros f [g|] Hf Hg; cbn [omap list_omap id].
    + simpl in Hg. rewrite filter_cons, decide_False by congruence.
      by rewrite filter_cons, decide_True.
    + by rewrite filter_cons, decide_True.
  - intros [f|] g Hf Hg; cbn [omap list_omap id].
    + simpl in Hf. rewrite filter_cons, decide_True by done.
      by rewrite filter_cons, decide_False by congruence.
    + by rewrite filter_cons, decide_True.
  - apply author_scan_keeps.
  - apply loop_keeps_names.
  - intros line rest st f g Hs Hind Hf0 Hg0 Hscan Hf Hg.
    destruct (authors_line_settles _ Hs) as [Hm He].
    destruct (settle_names st) as [Ef Eg].
    assert (Hex : examine 3 line rest st
                  = Some (with_authors (Some f) (Some g) (settle st))).
    { rewrite (examine_settle 0), normal_line_authors by auto.
      by rewrite Ef, Eg, Hf0, Hg0, Hscan. }
    rewrite loop_cons, Hex. cbn [mbind option_bind].
    destruct (loop_is_Some rest (with_authors (Some f) (Some g) (settle st)))
      as [st' Hst'].
    exists st'. split; [done|].
    destruct (loop_keeps_names _ _ _ Hst') as [Kf Kg].
    rewrite finish_author, (Kf f), (Kg g) by done. simpl truthy.
    by rewrite Hf, author_join_both.
  - intros cff_text Hno. unfold _parse_citation_cff.
    destruct (loop_is_Some (splitlines cff_text) initial) as [st Hst].
    rewrite Hst. cbn [mbind option_bind].
    destruct (loop_no_authors _ _ _ Hst Hno) as [Ef Eg].
    rewrite finish_author, Ef, Eg. simpl.
    by rewrite (loop_data_late _ _ _ "author" Hst) by auto.
Qed.

Lemma first_author_only_witness :
  (∃ st', loop ["authors:"; "  - family-names: Doe"; "    given-names: Jane";
                "  - family-names: Roe"; "    given-names: Rick"]
               initial = Some st'
          ∧ finish st' !! "author" = Some (VStr "Jane Doe"))
  ∧ (_parse_citation_cff (join newline ["title: T"; "doi: 10.1/x"])
       ≫= (.!! "author")) = None.
Proof.
  destruct first_author_only as (_ & _ & _ & _ & _ & _ & H7 & H8).
  split.
  - apply (H7 "authors:" _ initial "Doe" "Jane");
      first [reflexivity | discriminate].
  - apply H8. vm_compute. repeat constructor.
Defined.


(** ** The two functions together, and a worked example *)

(** [_load_default_metadata] never fails either: it is
    [default_metadata] at the record of the citation file, or at the
    empty record when the file is missing or empty. *)
Lemma load_default_metadata_total version cff_text :
  ∃ cff, _load_default_metadata version cff_text
         = Some (default_metadata version cff)
         ∧ (nonempty (default "" cff_text) = false → cff = ∅)
         ∧ (nonempty (default "" cff_text) = true →
            _parse_citation_cff (default "" cff_text) = Some cff).
Proof.
  unfold _load_default_metadata.
  destruct (nonempty (default "" cff_text)) eqn:Hne.
  - unfold _parse_citation_cff.
    destruct (loop_is_Some (splitlines (default "" cff_text)) initial)
      as [st ->].
    exists (finish st). by split_and!.
  - exists ∅. by split_and!.
Qed.

Example citation_file_record :
  _parse_citation_cff citation_file
  = Some (list_to_map
      [("title", VStr "Clocks: a Study");
       ("abstract", VStr ("Proper time" +:+ newline +:+ "and rods."));
       ("author", VStr "Jane Doe");
       ("keywords", VList ["time"; "clocks"]);
       ("doi", VStr "10.5281/zenodo.1");
       ("date_released", VStr "2024-03-15");
       ("license", VStr "CC-BY-4.0")]).
Proof. vm_compute. reflexivity. Qed.

Example citation_file_metadata :
  (λ md, final_metadata {["codename" := JStr "Alpha"; "version" := JStr "0.3"]}
           md no_overrides)
    <$> _parse_citation_cff citation_file
  = Some (list_to_map
      [("Title", "Clocks: a Study");
       ("Author", "Jane Doe");
       ("Creator", "Jane Doe");
       ("Producer", "TEP-EXP Research Project (Alpha v0.3)");
       ("Subject", "Proper time and rods. DOI: 10.5281/zenodo.1");
       ("Keywords", "time; clocks; Alpha v0.3");
       ("Copyright", cc_by_literal);
       ("CreationDate", "2024:03:15 00:00:00");
       ("ModifyDate", "2024:03:15 00:00:00");
       ("Identifier", "10.5281/zenodo.1")]).
Proof. vm_compute. reflexivity. Qed.


(** ** The fallback writer: [escape_ps] *)

Lemma replace_char_app old new s t :
  replace_char old new (s +:+ t)
  = replace_char old new s +:+ replace_char old new t.
Proof.
  induction s as [|c s IH]; [done|].
  rewrite app_cons_str. cbn [replace_char]. by rewrite IH, app_assoc_str.
Qed.

(** The three passes do to each character what one pass would. *)
Lemma escape_ps_cons c s :
  escape_ps (String c s) = escape_ps_char c +:+ escape_ps s.
Proof.
  unfold escape_ps. cbn [replace_char]. rewrite !replace_char_app.
  f_equal. unfold escape_ps_char, ps_special.
  destruct (Ascii.eqb_spec c "\"%char) as [->|H1]; [reflexivity|].
  lazy beta iota delta [replace_char String.append].
  destruct (Ascii.eqb_spec c "("%char) as [->|H2]; [reflexivity|].
  lazy beta iota delta [replace_char String.append].
  by destruct (Ascii.eqb_spec c ")"%char) as [->|H3].
Qed.

Lemma ps_special_backslash c :
  ps_special c = false → Ascii.eqb c "\"%char = false.
Proof. unfold ps_special. by destruct (Ascii.eqb c "\"%char). Qed.

Lemma escape_ps_ps_escaped s : ps_escaped (escape_ps s) = true.
Proof.
  induction s as [|c s IH]; [done|].
  rewrite escape_ps_cons. unfold escape_ps_char.
  destruct (ps_special c) eqn:Hc.
  - rewrite !app_cons_str, app_nil_l_str. cbn [ps_escaped].
    by rewrite Ascii.eqb_refl, Hc, IH.
  - rewrite app_cons_str, app_nil_l_str. cbn [ps_escaped].
    by rewrite (ps_special_backslash _ Hc), Hc, IH.
Qed.

(** X1.  The text [escape_ps] returns is the argument with a backslash
    put before every backslash, opening and closing parenthesis, as if
    in one pass; in it each of these three characters only occurs right
    after a backslash that escapes it. *)
Theorem escape_ps_escapes s :
  ps_escaped (escape_ps s) = true
  ∧ escape_ps "" = ""
  ∧ ∀ c s', escape_ps (String c s')
            = (if ps_special c then String "\"%char (String c "")
               else String c "") +:+ escape_ps s'.
Proof.
  split_and!; [apply escape_ps_ps_escaped|done|apply escape_ps_cons].
Qed.

(** X2.  [escape_ps] loses nothing: two values with the same escaped
    text are the same value. *)
Theorem escape_ps_injective s1 s2 :
  escape_ps s1 = escape_ps s2 → s1 = s2.
Proof.
  revert s2. induction s1 as [|c1 s1 IH]; intros [|c2 s2].
  - done.
  - rewrite escape_ps_cons. unfold escape_ps_char.
    destruct (ps_special c2); discriminate.
  - rewrite escape_ps_cons. unfold escape_ps_char.
    destruct (ps_special c1); discriminate.
  - rewrite !escape_ps_cons. unfold escape_ps_char.
    destruct (ps_special c1) eqn:H1, (ps_special c2) eqn:H2;
      rewrite ?app_cons_str, ?app_nil_l_str.
    + intros [= -> H]. by rewrite (IH _ H).
    + intros [= <- _]. discriminate H2.
    + intros [= -> _]. discriminate H1.
    + intros [= -> H]. by rewrite (IH _ H).
Qed.

Lemma escape_ps_injective_witness :
  "a(b" = "a(b".
Proof. apply escape_ps_injective. reflexivity. Defined.


(** ** The two embedding functions *)

Lemma embedded_items_cons key value (metadata : list (string * string)) :
  embedded_items ((key, value) :: metadata)
  = if nonempty (strip value)
    then (key, strip value) :: embedded_items metadata
    else embedded_items metadata.
Proof.
  unfold embedded_items. cbn [omap list_omap fst snd].
  by destruct (nonempty (strip value)).
Qed.

Lemma exiftool_fields_embedded (metadata : list (string * string)) :
  exiftool_fields metadata
  = (λ kv, "-" +:+ kv.1 +:+ "=" +:+ kv.2) <$> embedded_items metadata.
Proof.
  induction metadata as [|[key value] metadata IH]; [done|].
  rewrite embedded_items_cons. cbn [exiftool_fields].
  destruct (nonempty (strip value)); [|done].
  by rewrite fmap_cons, IH.
Qed.

Lemma meta_str_embedded (metadata : list (string * string)) :
  meta_str metadata
  = foldr (λ kv acc, ("/" +:+ kv.1 +:+ " (" +:+ escape_ps kv.2 +:+ ") ") +:+ acc)
          "" (embedded_items metadata).
Proof.
  induction metadata as [|[key value] metadata IH]; [done|].
  rewrite embedded_items_cons. cbn [meta_str].
  destruct (nonempty (strip value)); [|done].
  cbn [foldr fst snd]. by rewrite IH.
Qed.

Lemma elem_of_embedded_items (metadata : list (string * string)) key v :
  (key, v) ∈ embedded_items metadata ↔
  ∃ value, (key, value) ∈ metadata ∧ v = strip value ∧ v ≠ "".
Proof.
  unfold embedded_items. rewrite list_elem_of_omap. split.
  - intros ([k value] & Hin & Hf). simpl in Hf.
    destruct (nonempty (strip value)) eqn:Hne; [|discriminate].
    injection Hf as -> <-. exists value. split_and!; [done..|].
    by apply nonempty_true.
  - intros (value & Hin & -> & Hne%nonempty_true).
    exists (key, value). split; [done|]. simpl. by rewrite Hne.
Qed.

Lemma embedded_items_keys (metadata : list (string * string)) key :
  key ∈ (embedded_items metadata).*1 → key ∈ metadata.*1.
Proof.
  intros [[k v] [-> Hin]]%list_elem_of_fmap.
  apply elem_of_embedded_items in Hin as (value & Hin & _).
  apply list_elem_of_fmap. by exists (k, value).
Qed.

(** The items that pass are, as a mapping, [embed_fields] of the
    dictionary the items come from. *)
Lemma embedded_items_to_map (metadata : list (string * string)) :
  NoDup metadata.*1 →
  list_to_map (embedded_items metadata)
  = embed_fields (list_to_map metadata).
Proof.
  induction metadata as [|[key value] metadata IH]; intros Hnd.
  - unfold embed_fields. cbn [embedded_items omap list_omap list_to_map foldr].
    by rewrite omap_empty.
  - apply NoDup_cons in Hnd as [Hkey Hnd].
    rewrite embedded_items_cons. cbn [list_to_map foldr]. simpl fst. simpl snd.
    unfold embed_fields in *.
    assert (Hnone : (list_to_map metadata : gmap string string) !! key = None)
      by (by apply not_elem_of_list_to_map_1).
    destruct (nonempty (strip value)) eqn:Hne.
    + cbn [list_to_map foldr]. simpl fst. simpl snd. rewrite IH by done.
      symmetry. apply omap_insert_Some. simpl. by rewrite Hne.
    + rewrite IH by done. symmetry.
      rewrite omap_insert_None by (simpl; by rewrite Hne).
      apply delete_id. by rewrite lookup_omap, Hnone.
Qed.

(** X3.  [embed_metadata] calls exiftool with one argument per item of
    the dictionary whose value is not blank, in the order of the
    dictionary, made of a hyphen, the key, an equals sign and the
    stripped value, and then with the overwrite option and the path.  An
    item with a blank value gives no argument, so no argument ever ends
    in a bare key and equals sign.  Taken as a mapping, what is passed
    is [embed_fields] of the dictionary. *)
Theorem exiftool_cmd_fields pdf_path (metadata : list (string * string)) :
  exiftool_cmd pdf_path metadata
  = "exiftool"
    :: ((λ kv, "-" +:+ kv.1 +:+ "=" +:+ kv.2) <$> embedded_items metadata)
    ++ ["-overwrite_original"; pdf_path]
  ∧ (∀ key v, (key, v) ∈ embedded_items metadata ↔
              ∃ value, (key, value) ∈ metadata ∧ v = strip value ∧ v ≠ "")
  ∧ length (exiftool_cmd pdf_path metadata)
    = 3 + length (filter (λ kv, strip kv.2 ≠ "") metadata)
  ∧ (NoDup metadata.*1 →
     list_to_map (embedded_items metadata)
     = embed_fields (list_to_map metadata)).
Proof.
  split_and!.
  - unfold exiftool_cmd. by rewrite exiftool_fields_embedded.
  - apply elem_of_embedded_items.
  - unfold exiftool_cmd. rewrite !length_app. cbn [length].
    assert (length (exiftool_fields metadata)
            = length (filter (λ kv, strip kv.2 ≠ "") metadata)) as ->; [|lia].
    induction metadata as [|[key value] metadata IH]; [done|].
    cbn [exiftool_fields]. rewrite filter_cons. simpl snd.
    destruct (nonempty (strip value)) eqn:Hne.
    + rewrite decide_True by (by apply nonempty_true). simpl. by rewrite IH.
    + rewrite decide_False; [done|]. apply nonempty_false in Hne.
      rewrite Hne. by intros H.
  - apply embedded_items_to_map.
Qed.

Lemma exiftool_cmd_fields_witness :
  list_to_map (embedded_items [("Title", " T "); ("Author", "  ")])
  = embed_fields (list_to_map [("Title", " T "); ("Author", "  ")]).
Proof.
  apply (exiftool_cmd_fields "f.pdf" [("Title", " T "); ("Author", "  ")]).
  apply (bool_decide_unpack _). vm_compute. exact I.
Defined.

(** X4.  The fallback writes the same items as the exiftool path passes,
    in the same order and with the same stripped values: for each, a
    slash, the key, and the escaped value in parentheses, between the
    opening bracket and the closing operator.  Every value it writes is
    escaped. *)
Theorem pdfmark_text_fields (metadata : list (string * string)) :
  pdfmark_text metadata
  = "[ "
    +:+ foldr (λ kv acc,
                 ("/" +:+ kv.1 +:+ " (" +:+ escape_ps kv.2 +:+ ") ") +:+ acc)
              "" (embedded_items metadata)
    +:+ " /DOCINFO pdfmark"
  ∧ exiftool_fields metadata
    = (λ kv, "-" +:+ kv.1 +:+ "=" +:+ kv.2) <$> embedded_items metadata
  ∧ Forall (λ kv, ps_escaped (escape_ps kv.2) = true) (embedded_items metadata).
Proof.
  split_and!.
  - unfold pdfmark_text. by rewrite meta_str_embedded.
  - apply exiftool_fields_embedded.
  - apply Forall_forall. intros kv _.
    apply escape_ps_ps_escaped.
Qed.


#[local] Set Warnings "-clear-no-such-hyp".

(** ** [compress_pdf] *)

(** X5.  [compress_pdf] builds its command for exactly the five quality
    names that the option parser of [main] admits, with the name behind
    a slash as the settings argument, the output file as an option and
    the input path last; for any other name it raises the error that
    lists the five, before anything is run. *)
Theorem compress_cmd_quality input_path output_path quality :
  (quality ∈ quality_choices →
   compress_cmd input_path output_path quality
   = inr ["gs"; "-sDEVICE=pdfwrite"; "-dCompatibilityLevel=1.4";
          "-dPDFSETTINGS=/" +:+ quality; "-dNOPAUSE"; "-dQUIET"; "-dBATCH";
          "-sOutputFile=" +:+ output_path; input_path])
  ∧ (quality ∉ quality_choices →
     compress_cmd input_path output_path quality
     = inl "Quality must be one of: screen, ebook, printer, prepress, default").
Proof.
  split.
  - intros H. apply list_elem_of_In in H. simpl in H.
    destruct H as [<-|[<-|[<-|[<-|[<-|[]]]]]]; reflexivity.
  - intros H. unfold compress_cmd, quality_settings, table_get.
    repeat match goal with
           | |- context [String.eqb ?k quality] =>
               destruct (String.eqb_spec k quality) as [<-|_];
               [exfalso; apply H; apply (bool_decide_unpack _); vm_compute;
                exact I|]
           end.
    reflexivity.
Qed.

Lemma compress_cmd_quality_witness :
  compress_cmd "in.pdf" "out.pdf" "ebook"
  = inr ["gs"; "-sDEVICE=pdfwrite"; "-dCompatibilityLevel=1.4";
         "-dPDFSETTINGS=/ebook"; "-dNOPAUSE"; "-dQUIET"; "-dBATCH";
         "-sOutputFile=out.pdf"; "in.pdf"]
  ∧ compress_cmd "in.pdf" "out.pdf" "best"
    = inl "Quality must be one of: screen, ebook, printer, prepress, default".
Proof.
  split.
  - apply (compress_cmd_quality "in.pdf" "out.pdf" "ebook").
    apply (bool_decide_unpack _). vm_compute. exact I.
  - apply (compress_cmd_quality "in.pdf" "out.pdf" "best").
    apply (bool_decide_unpack _). vm_compute. exact I.
Defined.

(** ** The keys of the mapping *)

Lemma append_subject_dom label value (metadata : gmap string string) :
  dom (append_subject label value metadata) = {["Subject"]} ∪ dom metadata.
Proof.
  unfold append_subject.
  destruct (metadata !! "Subject") as [s|]; [destruct (nonempty s)|];
    by rewrite dom_insert_L.
Qed.

(** X6.  The dictionary [_load_default_metadata] returns always has the
    seven keys Title, Author, Creator, Producer, Subject, Keywords and
    Copyright, has CreationDate and ModifyDate together or not at all,
    has Identifier exactly when the record has a DOI, and has no other
    key.  The overrides of [main] add at most Identifier, and the fields
    [main] asks [verify_metadata] for are all among the seven. *)
Theorem default_metadata_keys version cff args :
  let md := default_metadata version cff in
  dom md
  = {["Title"; "Author"; "Creator"; "Producer"; "Subject"; "Keywords";
      "Copyright"]}
    ∪ (if nonempty (creation_date_of cff)
       then {["CreationDate"; "ModifyDate"]} else ∅)
    ∪ (if nonempty (doi_of cff) then {["Identifier"]} else ∅)
  ∧ dom (apply_overrides args md)
    = dom md ∪ (if truthy (arg_doi args) then {["Identifier"]} else ∅)
  ∧ Forall (λ field, field ∈ dom md) verified_fields.
Proof.
  intros md.
  assert (Hdom : dom md
    = {["Title"; "Author"; "Creator"; "Producer"; "Subject"; "Keywords";
        "Copyright"]}
      ∪ (if nonempty (creation_date_of cff)
         then {["CreationDate"; "ModifyDate"]} else ∅)
      ∪ (if nonempty (doi_of cff) then {["Identifier"]} else ∅)).
  { unfold md, default_metadata.
    destruct (nonempty (creation_date_of cff)), (nonempty (doi_of cff));
      rewrite !dom_insert_L, dom_empty_L; set_solver. }
  split; [|split].
  - done.
  - assert (Hs : {["Subject"]} ∪ dom md = dom md) by (rewrite Hdom; set_solver).
    assert (Ht : {["Title"]} ∪ dom md = dom md) by (rewrite Hdom; set_solver).
    assert (Ha : {["Creator"]} ∪ ({["Author"]} ∪ dom md) = dom md)
      by (rewrite Hdom; set_solver).
    unfold apply_overrides.
    destruct args as [[d|] [t|] [a|] [u|]]; simpl;
      repeat match goal with
             | |- context [nonempty ?x] => destruct (nonempty x)
             end;
      rewrite ?append_subject_dom, ?dom_insert_L, ?append_subject_dom,
        ?dom_insert_L;
      set_solver.
  - rewrite Hdom. unfold verified_fields.
    repeat (apply Forall_cons; split; [set_solver|]). by apply Forall_nil.
Qed.


(** ** Title, Author and Creator *)

Ltac overrides_lookup :=
  unfold apply_overrides;
  match goal with
  | args : overrides |- _ => destruct args as [[?|] [?|] [?|] [?|]]
  end;
  simpl;
  repeat match goal with
         | |- context [nonempty ?x] => destruct (nonempty x) eqn:?
         end;
  rewrite ?append_subject_lookup_ne by discriminate;
  map_lookup; try done.

Lemma default_metadata_base version cff :
  default_metadata version cff !! "Title" = Some (title_of cff)
  ∧ default_metadata version cff !! "Author" = Some (author_of cff)
  ∧ default_metadata version cff !! "Creator" = Some (author_of cff)
  ∧ default_metadata version cff !! "Subject" = Some (subject_of cff).
Proof.
  unfold default_metadata.
  destruct (nonempty (creation_date_of cff)), (nonempty (doi_of cff));
    by map_lookup.
Qed.

Lemma apply_overrides_title args (m : gmap string string) :
  apply_overrides args m !! "Title"
  = if truthy (arg_title args) then Some (default "" (arg_title args))
    else m !! "Title".
Proof. overrides_lookup. Qed.

Lemma apply_overrides_author args (m : gmap string string) :
  apply_overrides args m !! "Author"
  = if truthy (arg_author args) then Some (default "" (arg_author args))
    else m !! "Author".
Proof. overrides_lookup. Qed.

Lemma apply_overrides_creator args (m : gmap string string) :
  apply_overrides args m !! "Creator"
  = if truthy (arg_author args) then Some (default "" (arg_author args))
    else m !! "Creator".
Proof. overrides_lookup. Qed.

Lemma str_or_nonempty o d : d ≠ "" → str_or o d ≠ "".
Proof.
  intros Hd. unfold str_or. destruct o as [[s|l]|]; simpl; [| |done].
  - destruct (nonempty s) eqn:Hs; [by apply nonempty_true|done].
  - destruct (bool_decide (l = [])); simpl; [done|]. discriminate.
Qed.

(** X7.  The assembled mapping always has a Title, and it is never
    empty: the title given on the command line if that is not empty,
    else the title of the record, else the fixed project name. *)
Theorem title_precedence version cff args :
  let md := apply_overrides args (default_metadata version cff) in
  let title := if truthy (arg_title args) then default "" (arg_title args)
               else title_of cff in
  md !! "Title" = Some title
  ∧ title ≠ ""
  ∧ (∀ s, cff !! "title" = Some (VStr s) → s ≠ "" → title_of cff = s)
  ∧ (cff !! "title" = None → title_of cff = "TEP-EXP").
Proof.
  intros md title. destruct (default_metadata_base version cff) as (Ht & _).
  split_and!.
  - unfold md, title. rewrite apply_overrides_title, Ht.
    by destruct (truthy (arg_title args)).
  - unfold title. destruct (arg_title args) as [t|]; simpl.
    + destruct (nonempty t) eqn:Hne; [by apply nonempty_true|].
      by apply str_or_nonempty.
    + by apply str_or_nonempty.
  - intros s Hs Hne. unfold title_of, str_or. rewrite Hs. simpl.
    by destruct s.
  - intros Hn. unfold title_of, str_or. by rewrite Hn.
Qed.

Lemma title_precedence_witness :
  title_of {["title" := VStr "Clocks"]} = "Clocks"
  ∧ apply_overrides (Overrides None (Some "") None None)
      (default_metadata ∅ ∅) !! "Title" = Some "TEP-EXP".
Proof.
  split.
  - destruct (title_precedence ∅ {["title" := VStr "Clocks"]} no_overrides)
      as (_ & _ & H & _).
    apply H; [reflexivity | discriminate].
  - destruct (title_precedence ∅ ∅ (Overrides None (Some "") None None))
      as (H & _).
    exact H.
Defined.

(** X8.  Author and Creator always hold the same value, in the
    dictionary [_load_default_metadata] returns, after the overrides of
    [main], and in what reaches the document: the author given on the
    command line if that is not empty, else the author of the record,
    else the empty string, with which both fields are left out of the
    document together. *)
Theorem author_and_creator_agree version cff args :
  let md := apply_overrides args (default_metadata version cff) in
  let author := if truthy (arg_author args) then default "" (arg_author args)
                else author_of cff in
  md !! "Author" = Some author
  ∧ md !! "Creator" = Some author
  ∧ final_metadata version cff args !! "Author"
    = final_metadata version cff args !! "Creator"
  ∧ (cff !! "author" = None → author_of cff = "").
Proof.
  intros md author. destruct (default_metadata_base version cff) as (_ & Ha & Hc & _).
  assert (H1 : md !! "Author" = Some author).
  { unfold md, author. rewrite apply_overrides_author, Ha.
    by destruct (truthy (arg_author args)). }
  assert (H2 : md !! "Creator" = Some author).
  { unfold md, author. rewrite apply_overrides_creator, Hc.
    by destruct (truthy (arg_author args)). }
  split_and!; [done..| |].
  - unfold final_metadata. fold md. by rewrite !embed_fields_lookup, H1, H2.
  - intros Hn. unfold author_of, str_or. by rewrite Hn.
Qed.

Lemma author_and_creator_agree_witness :
  author_of ∅ = "".
Proof.
  destruct (author_and_creator_agree ∅ ∅ no_overrides) as (_ & _ & _ & H).
  apply H. reflexivity.
Defined.


(** ** More on the extractor *)

(** A property of the state that every kind of pass keeps is kept by
    the passes over a line, and by the loop. *)
Lemma examine_preserves (P : pstate → Prop) line rest st st' :
  examine 3 line rest st = Some st' →
  P st →
  (∀ s, P s → P (close_abstract s)) →
  (∀ s, P s → P (with_in_keywords false s)) →
  (∀ s, P s → P (with_abstract_lines (abstract_lines s ++ [dedent line]) s)) →
  (∀ s, P s → nonempty (keyword_of (strip line)) = true →
        P (with_keywords (keywords s ++ [keyword_of (strip line)]) s)) →
  (∀ s s', P s → normal_line line rest s = Some s' → P s') →
  P st'.
Proof.
  intros H HP Hclose Hkend Hcap Hkw Hnorm.
  assert (Hentry : ∀ s, P s →
            P (if nonempty (keyword_of (strip line))
               then with_keywords (keywords s ++ [keyword_of (strip line)]) s
               else s)).
  { intros s Hs. destruct (nonempty _) eqn:Hne; auto. }
  destruct (in_abstract st) eqn:Hia.
  - destruct (ends_abstract line) eqn:He.
    + rewrite examine_abstract_end in H by done.
      destruct (in_keywords st) eqn:Hik.
      * destruct (startswith (strip line) "-") eqn:Hm.
        -- rewrite examine_keyword_entry in H by done. injection H as <-.
           apply (Hentry (close_abstract st)), Hclose, HP.
        -- rewrite examine_keyword_end, examine_normal in H by done.
           apply (Hnorm _ _ (Hkend _ (Hclose _ HP)) H).
      * rewrite examine_normal in H by done.
        apply (Hnorm _ _ (Hclose _ HP) H).
    + rewrite examine_abstract_capture in H by done. injection H as <-.
      by apply Hcap.
  - destruct (in_keywords st) eqn:Hik.
    + destruct (startswith (strip line) "-") eqn:Hm.
      * rewrite examine_keyword_entry in H by done. injection H as <-.
        apply (Hentry st), HP.
      * rewrite examine_keyword_end, examine_normal in H by done.
        apply (Hnorm _ _ (Hkend _ HP) H).
    + rewrite examine_normal in H by done. apply (Hnorm _ _ HP H).
Qed.

Lemma loop_preserves (P : pstate → Prop) lines st st' :
  loop lines st = Some st' →
  P st →
  (∀ s, P s → P (close_abstract s)) →
  (∀ s, P s → P (with_in_keywords false s)) →
  (∀ s line, line ∈ lines →
     P s → P (with_abstract_lines (abstract_lines s ++ [dedent line]) s)) →
  (∀ s line, line ∈ lines →
     P s → nonempty (keyword_of (strip line)) = true →
     P (with_keywords (keywords s ++ [keyword_of (strip line)]) s)) →
  (∀ s s' pre line rest, lines = pre ++ line :: rest →
     P s → normal_line line rest s = Some s' → P s') →
  P st'.
Proof.
  revert st. induction lines as [|line rest IH];
    intros st H HP Hclose Hkend Hcap Hkw Hnorm.
  - by injection H as <-.
  - rewrite loop_cons in H.
    destruct (examine 3 line rest st) as [st1|] eqn:H1; [|discriminate].
    cbn [mbind option_bind] in H.
    apply (IH st1); try done.
    + apply (examine_preserves P _ _ _ _ H1); try done.
      * intros s Hs. apply Hcap; [|done]. apply list_elem_of_here.
      * intros s Hs. apply Hkw; [|done]. apply list_elem_of_here.
      * intros s s' Hs. by apply (Hnorm s s' []).
    + intros s l Hl. apply Hcap. by apply list_elem_of_further.
    + intros s l Hl. apply Hkw. by apply list_elem_of_further.
    + intros s s' pre l r ->. by apply (Hnorm s s' (line :: pre)).
Qed.

(** *** The shape of the record *)

Lemma normal_line_shape line rest s s' :
  map_Forall shape_ok (data s) → normal_line line rest s = Some s' →
  map_Forall shape_ok (data s').
Proof.
  intros Hs H.
  apply normal_line_inv in H
    as [->|[->|[(p & key & v & Hin & _ & _ & ->)|[(_ & fam & giv & _ & ->)| ->]]]];
    try done.
  simpl. unfold set_scalar. destruct (nonempty (unquote v)) eqn:Hne; [|done].
  apply map_Forall_insert_2; [|done]. simpl. right. split.
  - left. apply (list_elem_of_fmap_2 snd scalar_prefixes (p, key) Hin).
  - by apply nonempty_true.
Qed.

Lemma loop_shape lines st st' :
  loop lines st = Some st' →
  map_Forall shape_ok (data st) ∧ Forall (λ kw, kw ≠ "") (keywords st) →
  map_Forall shape_ok (data st') ∧ Forall (λ kw, kw ≠ "") (keywords st').
Proof.
  intros H HP.
  apply (loop_preserves
           (λ s, map_Forall shape_ok (data s)
                 ∧ Forall (λ kw, kw ≠ "") (keywords s)) _ _ _ H HP).
  - intros s [Hd Hk]. split; [|done]. simpl.
    apply map_Forall_insert_2; [|done]. simpl. left. split; [done|].
    apply strip_idem.
  - by intros s [Hd Hk].
  - by intros s line _ [Hd Hk].
  - intros s line _ [Hd Hk] Hne. split; [done|]. simpl.
    apply Forall_app. split; [done|]. apply Forall_singleton.
    by apply nonempty_true.
  - intros s s' pre line rest _ [Hd Hk] Hn. split.
    + by apply (normal_line_shape _ _ _ _ Hd Hn).
    + apply normal_line_inv in Hn
        as [->|[->|[(p & key & v & _ & _ & _ & ->)|[(_ & fam & giv & _ & ->)| ->]]]];
        done.
Qed.

Lemma author_join_nonempty fam giv :
  truthy fam || truthy giv = true →
  join " " (filter (λ p, nonempty p = true) (omap id [giv; fam])) ≠ "".
Proof.
  destruct fam as [f|], giv as [g|]; cbn [omap list_omap id truthy orb];
    rewrite ?filter_cons, ?filter_nil.
  - destruct (nonempty g) eqn:Hg, (nonempty f) eqn:Hf;
      rewrite ?decide_True, ?decide_False by congruence; try discriminate.
    + intros _. destruct g; [done|]. discriminate.
    + intros _. by apply nonempty_true.
    + intros _. by apply nonempty_true.
  - rewrite orb_false_r. intros Hf. rewrite decide_True by done.
    by apply nonempty_true.
  - simpl. intros Hg. rewrite decide_True by done. by apply nonempty_true.
  - discriminate.
Qed.

Lemma finish_shape st :
  map_Forall shape_ok (data st) → Forall (λ kw, kw ≠ "") (keywords st) →
  map_Forall shape_ok (finish st).
Proof.
  intros Hd Hk. unfold finish.
  assert (H1 : map_Forall shape_ok
            (if in_abstract st && negb (bool_decide (abstract_lines st = []))
             then <["abstract" :=
                      VStr (strip (join newline (abstract_lines st)))]> (data st)
             else data st)).
  { destruct (_ && _); [|done]. apply map_Forall_insert_2; [|done].
    simpl. left. split; [done|]. apply strip_idem. }
  set (d1 := if in_abstract st && _ then _ else _) in *.
  assert (H2 : map_Forall shape_ok
            (if negb (bool_decide (keywords st = []))
             then <["keywords" := VList (keywords st)]> d1 else d1)).
  { destruct (bool_decide (keywords st = [])) eqn:Hkw; simpl; [done|].
    apply map_Forall_insert_2; [|done]. simpl. split_and!; [done| |done].
    by apply bool_decide_eq_false in Hkw. }
  set (d2 := if negb _ then _ else _) in *.
  destruct (truthy (first_author_family st) || truthy (first_author_given st))
    eqn:Ha; [|done].
  apply map_Forall_insert_2; [|done]. simpl. right. split; [by right|].
  by apply author_join_nonempty.
Qed.

(** X9.  Whatever the text, the record the extractor returns has no
    other keys than the seven scalar ones, abstract, keywords and
    author; under a scalar key and under author it holds a non-empty
    string, under abstract a string without surrounding whitespace
    (possibly empty), and under keywords a non-empty list of non-empty
    strings. *)
Theorem parse_record_shape cff_text record k v :
  _parse_citation_cff cff_text = Some record →
  record !! k = Some v →
  match v with
  | VStr s =>
      k = "abstract" ∧ strip s = s
      ∨ (k ∈ ["title"; "doi"; "date_released"; "version"; "url";
              "repository_code"; "license"; "author"]) ∧ s ≠ ""
  | VList l => k = "keywords" ∧ l ≠ [] ∧ Forall (λ kw, kw ≠ "") l
  end.
Proof.
  unfold _parse_citation_cff.
  destruct (loop (splitlines cff_text) initial) as [st|] eqn:Hl; [|discriminate].
  cbn [mbind option_bind]. intros [= <-] Hk.
  destruct (loop_shape _ _ _ Hl) as [Hd Hkw].
  { split; [apply map_Forall_empty|apply Forall_nil_2]. }
  pose proof (finish_shape st Hd Hkw k v Hk) as Hv.
  destruct v as [s|l]; [|done].
  destruct Hv as [?|[[Hin| ->] Hs]]; [by left| |].
  - right. split; [|done]. change (scalar_prefixes.*2) with
      ["title"; "doi"; "date_released"; "version"; "url";
       "repository_code"; "license"] in Hin.
    apply list_elem_of_In. apply list_elem_of_In in Hin. simpl in *. tauto.
  - right. split; [|done]. apply list_elem_of_In. simpl. tauto.
Qed.

Lemma parse_record_shape_witness :
  "author" ∈ ["title"; "doi"; "date_released"; "version"; "url";
              "repository_code"; "license"; "author"]
  ∧ "Jane Doe" ≠ "".
Proof.
  destruct (parse_record_shape citation_file
              (default ∅ (_parse_citation_cff citation_file))
              "author" (VStr "Jane Doe")) as [[H _]|H].
  - vm_compute. reflexivity.
  - vm_compute. reflexivity.
  - discriminate H.
  - exact H.
Defined.


(** *** Lines the extractor passes over *)

Lemma normal_line_unrecognised line rest st :
  recognised (strip line) = false → normal_line line rest st = Some st.
Proof.
  unfold recognised, scalar_prefixes. cbn [existsb fst].
  intros H.
  repeat match goal with
         | Ho : _ || _ = false |- _ => apply orb_false_iff in Ho as [? ?]
         end.
  unfold normal_line.
  repeat match goal with
         | Hs : ?b = false |- context [if ?b then _ else _] => rewrite Hs
         end.
  done.
Qed.

Lemma loop_unrecognised lines st :
  in_abstract st = false → in_keywords st = false →
  Forall (λ l, recognised (strip l) = false) lines →
  loop lines st = Some st.
Proof.
  intros Ha Hk Hl. induction Hl as [|line rest Hline Hl IH]; [done|].
  rewrite loop_cons, (examine_normal 2), normal_line_unrecognised by done.
  exact IH.
Qed.

(** X10.  A text none of whose lines begins, once trimmed, with one of
    the ten prefixes gives the empty record; this covers the empty text,
    blank lines and comment lines.  A line that begins with the abstract
    prefix but does not end with the block sign counts as such a line:
    an abstract written on the line itself is passed over. *)
Theorem unrecognised_text_gives_empty_record :
  (∀ cff_text,
     Forall (λ l, recognised (strip l) = false) (splitlines cff_text) →
     _parse_citation_cff cff_text = Some ∅)
  ∧ (∀ s, startswith s "abstract:" = true → endswith s ">" = false →
          recognised s = false)
  ∧ (∀ s, startswith s "#" = true → recognised s = false)
  ∧ recognised "" = false.
Proof.
  split_and!.
  - intros cff_text Hl. unfold _parse_citation_cff.
    by rewrite loop_unrecognised.
  - intros s [r ->]%startswith_app He. unfold recognised. rewrite He.
    reflexivity.
  - intros s [r ->]%startswith_app. reflexivity.
  - reflexivity.
Qed.

Lemma unrecognised_text_gives_empty_record_witness :
  _parse_citation_cff
    (join newline ["# a citation file"; ""; "abstract: All in one line";
                   "message: cite this"])
  = Some ∅.
Proof.
  destruct unrecognised_text_gives_empty_record as [H _].
  apply H. vm_compute. repeat constructor.
Defined.

(** *** Indentation *)






(** *** Where the author scan stops *)

(** X12.  The scan set off by an authors line reads no further than the
    first line that begins with the preferred-citation prefix or that is
    not blank, does not begin with a space, and has a colon: whatever
    comes after that line has no part in the names. *)
Theorem author_scan_stops pre stop post fam giv :
  scan_stops stop = true →
  author_scan (pre ++ stop :: post) fam giv = author_scan pre fam giv.
Proof.
  intros Hstop. revert fam giv.
  induction pre as [|lj pre IH]; intros fam giv.
  - cbn [app author_scan]. unfold scan_stops in Hstop. by rewrite Hstop.
  - change ((lj :: pre) ++ stop :: post) with (lj :: pre ++ stop :: post).
    cbn [author_scan].
    destruct (_ || _); [done|].
    destruct (if startswith _ "family-names:" && is_none fam then _ else _)
      as [fam'|]; [|done].
    cbn [mbind option_bind].
    destruct (if startswith _ "given-names:" && is_none giv then _ else _)
      as [giv'|]; [|done].
    cbn [mbind option_bind].
    destruct (truthy fam' && truthy giv'); [done|]. apply IH.
Qed.

Lemma author_scan_stops_witness :
  author_scan ["  - family-names: Doe"; "title: T"; "    given-names: Late"]
              None None
  = author_scan ["  - family-names: Doe"] None None.
Proof.
  apply (author_scan_stops ["  - family-names: Doe"] "title: T"
           ["    given-names: Late"]).
  reflexivity.
Defined.

(** *** Keywords from several blocks *)

(** X13.  The keyword sequence only ever grows: what the loop has
    collected by some line is still the beginning of what it holds at the
    end, so that a second keywords block adds to the first instead of
    replacing it. *)
Theorem keywords_only_grow lines st st' :
  loop lines st = Some st' → keywords st `prefix_of` keywords st'.
Proof.
  intros H.
  apply (loop_preserves (λ s, keywords st `prefix_of` keywords s) _ _ _ H).
  - done.
  - done.
  - done.
  - done.
  - intros s line _ Hs _. simpl. by apply prefix_app_r.
  - intros s s' pre line rest _ Hs Hn.
    apply normal_line_inv in Hn
      as [->|[->|[(p & key & v & _ & _ & _ & ->)|[(_ & fam & giv & _ & ->)| ->]]]];
      done.
Qed.

Lemma keywords_only_grow_witness :
  ["time"] `prefix_of` ["time"; "clocks"].
Proof.
  apply (keywords_only_grow ["title: T"; "keywords:"; "  - clocks"]
           (with_keywords ["time"] initial)
           (with_in_keywords true (with_keywords ["time"; "clocks"]
              (with_data {["title" := VStr "T"]} initial)))).
  vm_compute. reflexivity.
Defined.
